(** * log4tiny: the printf-style format parser of [format_parser.hpp]

    A shallow embedding of [src/format_parser.hpp] and the properties of
    its format scanner.

    Conventions of the embedding.
    - A [std::string_view] is the [string] of the characters it spans.
      Every view the parser handles is a suffix of the format it was
      given ([substr] with one argument, [remove_prefix]), so all of them
      end at the same address.  The consumers dereference
      [format.cbegin()] without looking at the size; on an empty view
      that reads the character stored right behind the format (the
      terminator of a literal or of a [std::string]).  That character is
      the section variable [past_end].  A view whose storage ends with
      its last character has no such character; the read is then outside
      the storage, and the embedding does not cover it.
    - [substr] throws [std::out_of_range] when its position is beyond the
      size; [remove_prefix] beyond the size has no defined behaviour.
      Both are outcomes of the model ([Thrown], [Undefined]) next to the
      normal return [Value].
    - The functions are [constexpr] and run in two ways.  At run time the
      handler of [parse_first_placeholder] catches what its [try] block
      throws.  In a constant evaluation (the [static_assert] of
      [verify_format_with_arguments]) a [throw] that is reached ends the
      evaluation, handler or not: the expression is no constant
      expression and the program is ill-formed.  The functions named
      [constant_...] are the same code evaluated that way, and [Thrown]
      is then that end.
    - [consume_repeatedly] and the loop of the scanner recurse on views,
      not on a structure: the model gives them an iteration budget, and
      [OutOfFuel] is the outcome of a budget that was too small. *)

From Stdlib Require Import String Ascii List ZArith Lia Bool Arith.
Import ListNotations.

Local Open Scope string_scope.

(** ** Outcomes: normal return, exception, undefined behaviour *)

Inductive outcome (A : Type) : Type :=
| Value (a : A)
| Thrown
| Undefined
| OutOfFuel.

Arguments Value {A} a.
Arguments Thrown {A}.
Arguments Undefined {A}.
Arguments OutOfFuel {A}.

Definition bind {A B : Type} (c : outcome A) (k : A -> outcome B) : outcome B :=
  match c with
  | Value a => k a
  | Thrown => Thrown
  | Undefined => Undefined
  | OutOfFuel => OutOfFuel
  end.

Declare Scope outcome_scope.
Delimit Scope outcome_scope with outcome.
Notation "x <- c ;; k" := (bind c (fun x => k))
  (at level 61, c at next level, right associativity) : outcome_scope.
Notation "' pat <- c ;; k" := (bind c (fun x => match x with pat => k end))
  (at level 61, pat pattern, c at next level, right associativity) : outcome_scope.
Local Open Scope outcome_scope.

(** [try { body } catch (const std::exception &) { }] followed by
    [handler]: only a thrown exception reaches the handler. *)
Definition try_catch {A : Type} (body : outcome A) (handler : outcome A) : outcome A :=
  match body with
  | Thrown => handler
  | other => other
  end.

(** ** Type matchers *)

Module matcher.

(** Modelled from the spec: [type_matcher.hpp] is not among the sources.
    The spec (section 3) gives [PlaceholderType] as a closed variant of
    seven categories; the default-constructed [PlaceholderType{}] that
    the parser returns for [%n] is the one without a type requirement. *)
Inductive PlaceholderType : Type :=
| SignedIntType
| UnsignedIntType
| FloatingType
| CharType
| StringType
| PointerType
| Unconstrained.

End matcher.
Import matcher.

(** ** String views *)

Definition size (format : string) : nat := String.length format.

Definition empty (format : string) : bool :=
  match format with
  | EmptyString => true
  | String _ _ => false
  end.

(** The view that starts [n] characters further (at most at the end). *)
Fixpoint advance (n : nat) (format : string) : string :=
  match n, format with
  | O, _ => format
  | S n', String _ rest => advance n' rest
  | S _, EmptyString => EmptyString
  end.

(** [format.substr(pos)]: throws [std::out_of_range] when [pos > size()]. *)
Definition substr (pos : nat) (format : string) : outcome string :=
  if (pos <=? size format)%nat then Value (advance pos format) else Thrown.

(** [format.remove_prefix(n)], [n] a [long] converted to [size_t]: a
    negative [n] converts to a huge size, so it is defined only for
    [0 <= n <= size()]. *)
Definition remove_prefix (n : Z) (format : string) : outcome string :=
  if ((0 <=? n) && (n <=? Z.of_nat (size format)))%Z
  then Value (advance (Z.to_nat n) format)
  else Undefined.

(** [format.starts_with(s)]. *)
Definition starts_with (format s : string) : bool := String.prefix s format.

(** [format.find(s)]: the position of the first occurrence, [None] for
    [npos]. *)
Definition find (format s : string) : option nat := String.index 0 s format.

(** [std::distance(format.cbegin(), post.cbegin())] for two views that end
    at the same address. *)
Definition distance (format post : string) : Z :=
  (Z.of_nat (size format) - Z.of_nat (size post))%Z.

Arguments distance : simpl never.

(** The value of a [char] in a comparison (a signed 8-bit integer). *)
Definition char_value (c : ascii) : Z :=
  let n := Z.of_N (N_of_ascii c) in
  if (n <? 128)%Z then n else (n - 256)%Z.

Module Specifier.

(** [enum class Specifier : char]. *)
Inductive t : Type :=
| d | i | u | o | x | X | f | F | e | E | g | G | a | A | c | s | p | n.

(** [static_cast<char>(specifier)]. *)
Definition to_char (specifier : t) : ascii :=
  match specifier with
  | d => "d" | i => "i" | u => "u" | o => "o" | x => "x" | X => "X"
  | f => "f" | F => "F" | e => "e" | E => "E" | g => "g" | G => "G"
  | a => "a" | A => "A" | c => "c" | s => "s" | p => "p" | n => "n"
  end%char.

End Specifier.

(** The result structs of the sub-parsers. *)
Record WidthReturnValue : Type := {
  width_substring : string;
  width_type_matcher : option PlaceholderType
}.

Record PrecisionReturnValue : Type := {
  precision_substring : string;
  precision_type_matcher : option PlaceholderType
}.

Record LengthReturnValue : Type := {
  length_substring : string;
  allowed_specifiers : list Specifier.t
}.

Record SpecifierResult : Type := {
  specifier_substring : option string;
  placeholder_type_matcher : PlaceholderType
}.

Record ReturnValue : Type := {
  is_valid : bool;
  type_matchers : list PlaceholderType;
  placeholder_length : Z
}.

(** [placeholder_type_matchers.emplace_back(m.value())] under [if (m)]. *)
Definition emplace_back_if_any (matchers : list PlaceholderType)
    (m : option PlaceholderType) : list PlaceholderType :=
  match m with
  | Some t => (matchers ++ [t])%list
  | None => matchers
  end.

Section FormatParser.

(** The character stored right behind the format. *)
Variable past_end : ascii.

(** [*format.cbegin()] and [format.front()]. *)
Definition front (format : string) : ascii :=
  match format with
  | EmptyString => past_end
  | String ch _ => ch
  end.

(** *** Character consumers *)

Definition consume_character (format : string) (character : ascii)
    : outcome (option string) :=
  if Ascii.eqb (front format) character
  then rest <- substr 1 format ;; Value (Some rest)
  else Value None.

Definition consume_character_from_range (format : string)
    (first_character last_character : ascii) : outcome (option string) :=
  if ((char_value first_character <=? char_value (front format))
      && (char_value (front format) <=? char_value last_character))%Z
  then rest <- substr 1 format ;; Value (Some rest)
  else Value None.

(** The overload over a parameter pack: a fold of [==] with [or]. *)
Definition consume_character_from_set (format : string)
    (characters : list ascii) : outcome (option string) :=
  if existsb (Ascii.eqb (front format)) characters
  then rest <- substr 1 format ;; Value (Some rest)
  else Value None.

(** The overload over a container: [std::ranges::find]. *)
Definition consume_character_from_container (format : string)
    (characters : list ascii) : outcome (option string) :=
  match List.find (Ascii.eqb (front format)) characters with
  | Some _ => rest <- substr 1 format ;; Value (Some rest)
  | None => Value None
  end.

Definition consume_string (format string_to_consume : string)
    : outcome (option string) :=
  match find format string_to_consume with
  | Some O => rest <- substr (size string_to_consume) format ;; Value (Some rest)
  | _ => Value None
  end.

(** *** Repeated consumer

    The body of the [while (true)] returns in its first round, either the
    view it has or the result of the recursive call; [fuel] bounds the
    depth of the recursion. *)
Fixpoint consume_repeatedly_fuel (fuel : nat)
    (function : string -> outcome (option string)) (format : string)
    : outcome (option string) :=
  return_value <- function format ;;
  match return_value with
  | None => Value (Some format)
  | Some value =>
      if String.eqb value format then Value (Some format)
      else match fuel with
           | O => OutOfFuel
           | S fuel' => consume_repeatedly_fuel fuel' function value
           end
  end.

Definition consume_repeatedly (function : string -> outcome (option string))
    (format : string) : outcome (option string) :=
  consume_repeatedly_fuel (size format) function format.

(** *** Grammar sub-parsers *)

Definition consume_start_character (format : string) : outcome (option string) :=
  consume_character format "%".

Definition consume_flags_if_any (format : string) : outcome string :=
  substring <- consume_character_from_set format ["+"; "-"; " "; "#"; "0"]%char ;;
  Value (match substring with Some v => v | None => format end).

Definition consume_width_if_any (format : string) : outcome WidthReturnValue :=
  additional_argument_substring <- consume_character format "*" ;;
  match additional_argument_substring with
  | Some v =>
      Value {| width_substring := v; width_type_matcher := Some UnsignedIntType |}
  | None =>
      substring <- consume_repeatedly
                     (fun v => consume_character_from_range v "0" "9") format ;;
      match substring with
      | Some v => Value {| width_substring := v; width_type_matcher := None |}
      | None => Value {| width_substring := format; width_type_matcher := None |}
      end
  end.

Definition consume_precision_if_any (format : string) : outcome PrecisionReturnValue :=
  let not_consumed :=
    {| precision_substring := format; precision_type_matcher := None |} in
  substring_without_precision_specifier <- consume_character format "." ;;
  match substring_without_precision_specifier with
  | Some after_dot =>
      additional_argument_substring <- consume_character after_dot "*" ;;
      match additional_argument_substring with
      | Some v =>
          Value {| precision_substring := v;
                   precision_type_matcher := Some UnsignedIntType |}
      | None =>
          substring <- consume_repeatedly
                         (fun v => consume_character_from_range v "0" "9") after_dot ;;
          match substring with
          | Some v =>
              Value {| precision_substring := v; precision_type_matcher := None |}
          | None => Value not_consumed
          end
      end
  | None => Value not_consumed
  end.

Definition integer_specifiers : list Specifier.t :=
  [Specifier.d; Specifier.i; Specifier.u; Specifier.o; Specifier.x;
   Specifier.X; Specifier.n].

Definition long_specifiers : list Specifier.t :=
  [Specifier.d; Specifier.i; Specifier.u; Specifier.o; Specifier.x;
   Specifier.X; Specifier.c; Specifier.s; Specifier.n].

Definition long_double_specifiers : list Specifier.t :=
  [Specifier.f; Specifier.F; Specifier.e; Specifier.E; Specifier.g;
   Specifier.G; Specifier.a; Specifier.A].

Definition all_specifiers : list Specifier.t :=
  [Specifier.d; Specifier.i; Specifier.u; Specifier.o; Specifier.x; Specifier.X;
   Specifier.f; Specifier.F; Specifier.e; Specifier.E; Specifier.g; Specifier.G;
   Specifier.a; Specifier.A; Specifier.c; Specifier.s; Specifier.p; Specifier.n].

Definition consume_length_if_any (format : string) : outcome LengthReturnValue :=
  hh <- consume_string format "hh" ;;
  match hh with
  | Some v => Value {| length_substring := v; allowed_specifiers := integer_specifiers |}
  | None =>
  ll <- consume_string format "ll" ;;
  match ll with
  | Some v => Value {| length_substring := v; allowed_specifiers := integer_specifiers |}
  | None =>
  l <- consume_character format "l" ;;
  match l with
  | Some v => Value {| length_substring := v; allowed_specifiers := long_specifiers |}
  | None =>
  L <- consume_character format "L" ;;
  match L with
  | Some v =>
      Value {| length_substring := v; allowed_specifiers := long_double_specifiers |}
  | None =>
  other <- consume_character_from_set format ["h"; "j"; "z"; "t"]%char ;;
  match other with
  | Some v => Value {| length_substring := v; allowed_specifiers := integer_specifiers |}
  | None => Value {| length_substring := format; allowed_specifiers := all_specifiers |}
  end end end end end.

Definition specifiers_to_characters (specifiers : list Specifier.t) : list ascii :=
  List.map Specifier.to_char specifiers.

Definition specifier_to_placeholder_type_matcher (specifier : ascii)
    : PlaceholderType :=
  if Ascii.eqb specifier "d" || Ascii.eqb specifier "i" then SignedIntType
  else if Ascii.eqb specifier "u" || Ascii.eqb specifier "o"
          || Ascii.eqb specifier "x" || Ascii.eqb specifier "X"
  then UnsignedIntType
  else if Ascii.eqb specifier "f" || Ascii.eqb specifier "F"
          || Ascii.eqb specifier "e" || Ascii.eqb specifier "E"
          || Ascii.eqb specifier "g" || Ascii.eqb specifier "G"
          || Ascii.eqb specifier "a" || Ascii.eqb specifier "A"
  then FloatingType
  else if Ascii.eqb specifier "c" then CharType
  else if Ascii.eqb specifier "s" then StringType
  else if Ascii.eqb specifier "p" then PointerType
  else Unconstrained.

Definition consume_specifier (format : string)
    (allowed : list Specifier.t) : outcome SpecifierResult :=
  let specifier_characters := specifiers_to_characters allowed in
  consumed <- consume_character_from_container format specifier_characters ;;
  match consumed with
  | Some _ =>
      let specifier_character := front format in
      rest <- substr 1 format ;;
      Value {| specifier_substring := Some rest;
               placeholder_type_matcher :=
                 specifier_to_placeholder_type_matcher specifier_character |}
  | None =>
      Value {| specifier_substring := None;
               placeholder_type_matcher := Unconstrained |}
  end.

(** *** Placeholder parser *)

Definition invalid_placeholder : ReturnValue :=
  {| is_valid := false; type_matchers := []; placeholder_length := 0 |}.

(** The [try] block: [Some] for the [return] inside it, [None] when
    control leaves it at its end. *)
Definition parse_first_placeholder_try (format : string)
    : outcome (option ReturnValue) :=
  post_start <- consume_start_character format ;;
  match post_start with
  | None => Value None
  | Some post_start_substring =>
      let placeholder_type_matchers := [] in
      post_flags_substring <- consume_flags_if_any post_start_substring ;;
      width <- consume_width_if_any post_flags_substring ;;
      let placeholder_type_matchers :=
        emplace_back_if_any placeholder_type_matchers (width_type_matcher width) in
      precision <- consume_precision_if_any (width_substring width) ;;
      let placeholder_type_matchers :=
        emplace_back_if_any placeholder_type_matchers
          (precision_type_matcher precision) in
      length <- consume_length_if_any (precision_substring precision) ;;
      specifier <- consume_specifier (length_substring length)
                     (allowed_specifiers length) ;;
      match specifier_substring specifier with
      | Some post_specifier_substring =>
          Value (Some
            {| is_valid := true;
               type_matchers :=
                 (placeholder_type_matchers ++ [placeholder_type_matcher specifier])%list;
               placeholder_length := distance format post_specifier_substring |})
      | None => Value None
      end
  end.

Definition parse_first_placeholder (format : string) : outcome ReturnValue :=
  returned <- try_catch (parse_first_placeholder_try format) (Value None) ;;
  match returned with
  | Some r => Value r
  | None => Value invalid_placeholder
  end.

(** *** Format scanner *)

Definition skip_escaped_starting_character (format : string) : outcome string :=
  if starts_with format "%%" then substr 2 format else Value format.

(** One round of the [while] loop, on the non-empty view [substring]. *)
Definition scan_round (substring : string) (result : list PlaceholderType)
    : outcome (string * list PlaceholderType) :=
  r <- parse_first_placeholder substring ;;
  '(substring', result') <-
    (if is_valid r
     then rest <- remove_prefix (placeholder_length r) substring ;;
          Value (rest, (result ++ type_matchers r)%list)
     else rest <- remove_prefix 1 substring ;;
          Value (rest, result)) ;;
  skipped <- skip_escaped_starting_character substring' ;;
  Value (skipped, result').

(** The [while (not substring.empty())] loop with a budget of rounds. *)
Fixpoint scan_loop (rounds : nat) (substring : string)
    (result : list PlaceholderType) : outcome (list PlaceholderType) :=
  if empty substring then Value result
  else match rounds with
       | O => OutOfFuel
       | S rounds' =>
           '(substring', result') <- scan_round substring result ;;
           scan_loop rounds' substring' result'
       end.

Definition parse_format_to_placeholder_matchers (format : string)
    : outcome (list PlaceholderType) :=
  substring <- skip_escaped_starting_character format ;;
  scan_loop (size format) substring [].

(** *** Constant evaluation

    The scanner as a constant expression evaluates it: the same
    functions, but an exception thrown in the [try] block of
    [parse_first_placeholder] is not caught, it ends the evaluation. *)
Definition constant_parse_first_placeholder (format : string)
    : outcome ReturnValue :=
  returned <- parse_first_placeholder_try format ;;
  match returned with
  | Some r => Value r
  | None => Value invalid_placeholder
  end.

Definition constant_scan_round (substring : string)
    (result : list PlaceholderType) : outcome (string * list PlaceholderType) :=
  r <- constant_parse_first_placeholder substring ;;
  '(substring', result') <-
    (if is_valid r
     then rest <- remove_prefix (placeholder_length r) substring ;;
          Value (rest, (result ++ type_matchers r)%list)
     else rest <- remove_prefix 1 substring ;;
          Value (rest, result)) ;;
  skipped <- skip_escaped_starting_character substring' ;;
  Value (skipped, result').

Fixpoint constant_scan_loop (rounds : nat) (substring : string)
    (result : list PlaceholderType) : outcome (list PlaceholderType) :=
  if empty substring then Value result
  else match rounds with
       | O => OutOfFuel
       | S rounds' =>
           '(substring', result') <- constant_scan_round substring result ;;
           constant_scan_loop rounds' substring' result'
       end.

Definition constant_parse_format_to_placeholder_matchers (format : string)
    : outcome (list PlaceholderType) :=
  substring <- skip_escaped_starting_character format ;;
  constant_scan_loop (size format) substring [].

(** *** Verification

    [static_assert(sizeof...(T) == parse_format_to_placeholder_matchers(format).size())]:
    the condition is a constant evaluation of the scanner.  [Value true]
    when the assertion holds, [Value false] when it fails, [Thrown] when
    the evaluation reaches a [throw] (the condition is no constant
    expression, the program is ill-formed).  Only the number of the
    arguments enters, so the pack is a list over any type. *)
Definition verify_format_with_arguments {T : Type} (format : string)
    (args : list T) : outcome bool :=
  matchers <- constant_parse_format_to_placeholder_matchers format ;;
  Value (List.length args =? List.length matchers)%nat.

End FormatParser.

(** The terminator of a string literal. *)
Definition NUL : ascii := Ascii.zero.


(** ** Auxiliary notions for the proofs *)

(** A single-character consumer in normal form: test the first character,
    then [substr(1)]. *)
Definition consume_when (P : ascii -> bool) (past_end : ascii) (format : string)
    : outcome (option string) :=
  if P (front past_end format)
  then rest <- substr 1 format ;; Value (Some rest)
  else Value None.

Fixpoint all_chars (P : ascii -> bool) (format : string) : bool :=
  match format with
  | EmptyString => true
  | String ch rest => P ch && all_chars P rest
  end.

Fixpoint skip_while (P : ascii -> bool) (format : string) : string :=
  match format with
  | EmptyString => EmptyString
  | String ch rest => if P ch then skip_while P rest else format
  end.

Definition is_flag (ch : ascii) : bool :=
  existsb (Ascii.eqb ch) ["+"; "-"; " "; "#"; "0"]%char.

Definition is_digit (ch : ascii) : bool :=
  ((char_value "0" <=? char_value ch) && (char_value ch <=? char_value "9"))%Z.

Definition is_short_length (ch : ascii) : bool :=
  existsb (Ascii.eqb ch) ["h"; "j"; "z"; "t"]%char.

(** What one round of the loop removes in front of the escape check: the
    placeholder when there is one, one character otherwise. *)
Definition round_advance (r : ReturnValue) : nat :=
  if is_valid r then Z.to_nat (placeholder_length r) else 1.

Definition round_matchers (r : ReturnValue) : list PlaceholderType :=
  if is_valid r then type_matchers r else [].

(** The loop of the scanner, round by round: [scan_steps pe n view result
    view' result'] when [n] rounds of the loop, each on a non-empty view,
    lead from [view] and [result] to [view'] and [result']. *)
Inductive scan_steps (pe : ascii)
    : nat -> string -> list PlaceholderType
      -> string -> list PlaceholderType -> Prop :=
| scan_steps_none (view : string) (result : list PlaceholderType) :
    scan_steps pe 0 view result view result
| scan_steps_round (n : nat) (view view' view'' : string)
    (result result' result'' : list PlaceholderType) :
    empty view = false ->
    scan_round pe view result = Value (view', result') ->
    scan_steps pe n view' result' view'' result'' ->
    scan_steps pe (S n) view result view'' result''.

(** What C6 says one iteration on [view] advances by: the length of the
    placeholder when there is one, two on an escape, one otherwise. *)
Definition claimed_round_advance (pe : ascii) (view : string) : outcome nat :=
  r <- parse_first_placeholder pe view ;;
  Value (if is_valid r then Z.to_nat (placeholder_length r)
         else if starts_with view "%%" then 2 else 1).

(** Text without a [%]. *)
Definition literal_text (format : string) : bool :=
  all_chars (fun ch => negb (Ascii.eqb ch "%")) format.

(** [post] is a view into the tail of [format]. *)
Definition suffix_of (post format : string) : Prop :=
  exists consumed, format = consumed ++ post.

(** An outcome of code that neither runs out of budget nor leaves the
    defined behaviour. *)
Definition returns_or_throws {A : Type} (c : outcome A) : Prop :=
  (exists a, c = Value a) \/ c = Thrown.

(** The matchers that an optional extra argument adds. *)
Definition extra_matcher (m : option PlaceholderType) : list PlaceholderType :=
  match m with
  | Some t => [t]
  | None => []
  end.

(** ** Views *)

Lemma size_append (a b : string) : size (a ++ b) = size a + size b.
Proof.
  unfold size. induction a as [|ch a IH]; simpl; [reflexivity|].
  now rewrite IH.
Qed.

Lemma size_cons (ch : ascii) (rest : string) :
  size (String ch rest) = S (size rest).
Proof. reflexivity. Qed.

Lemma advance_append (consumed post : string) :
  advance (size consumed) (consumed ++ post) = post.
Proof.
  induction consumed as [|ch consumed IH]; simpl; [reflexivity|exact IH].
Qed.

Lemma size_advance (n : nat) (format : string) :
  size (advance n format) = size format - n.
Proof.
  revert format. induction n as [|n IH]; intros [|ch rest]; simpl; auto.
Qed.

Lemma string_eqb_tail (ch : ascii) (rest : string) :
  String.eqb rest (String ch rest) = false.
Proof.
  apply String.eqb_neq. intros H.
  apply (f_equal String.length) in H. simpl in H. lia.
Qed.

Lemma suffix_of_refl (format : string) : suffix_of format format.
Proof. now exists EmptyString. Qed.

Lemma suffix_of_tail (ch : ascii) (rest : string) :
  suffix_of rest (String ch rest).
Proof. now exists (String ch EmptyString). Qed.

Lemma append_assoc (a b c : string) : (a ++ b) ++ c = a ++ (b ++ c).
Proof.
  induction a as [|ch a IH]; simpl; [reflexivity|now rewrite IH].
Qed.

Lemma suffix_of_trans (a b c : string) :
  suffix_of a b -> suffix_of b c -> suffix_of a c.
Proof.
  intros [p Hp] [q Hq]. exists (q ++ p). subst. now rewrite append_assoc.
Qed.

Lemma suffix_of_size (post format : string) :
  suffix_of post format -> size post <= size format.
Proof. intros [p ->]. rewrite size_append. lia. Qed.

Lemma skip_while_suffix (P : ascii -> bool) (format : string) :
  suffix_of (skip_while P format) format.
Proof.
  induction format as [|ch rest IH]; simpl.
  - apply suffix_of_refl.
  - destruct (P ch).
    + eapply suffix_of_trans; [exact IH|apply suffix_of_tail].
    + apply suffix_of_refl.
Qed.

Lemma skip_while_no_match (P : ascii -> bool) (ch : ascii) (rest : string) :
  P ch = false -> skip_while P (String ch rest) = String ch rest.
Proof. intros H. simpl. now rewrite H. Qed.

(** ** The character consumers and the repeated consumer *)

Section ConsumerFacts.

Variable pe : ascii.

Lemma consume_when_empty (P : ascii -> bool) :
  consume_when P pe "" = if P pe then Thrown else Value None.
Proof. reflexivity. Qed.

Lemma consume_when_cons (P : ascii -> bool) (ch : ascii) (rest : string) :
  consume_when P pe (String ch rest) = if P ch then Value (Some rest) else Value None.
Proof. reflexivity. Qed.

Lemma consume_character_when (format : string) (character : ascii) :
  consume_character pe format character
  = consume_when (fun ch => Ascii.eqb ch character) pe format.
Proof. reflexivity. Qed.

Lemma consume_character_from_range_when (format : string) (lo hi : ascii) :
  consume_character_from_range pe format lo hi
  = consume_when
      (fun ch => ((char_value lo <=? char_value ch)
                  && (char_value ch <=? char_value hi))%Z) pe format.
Proof. reflexivity. Qed.

Lemma consume_character_from_set_when (format : string) (characters : list ascii) :
  consume_character_from_set pe format characters
  = consume_when (fun ch => existsb (Ascii.eqb ch) characters) pe format.
Proof. reflexivity. Qed.

Lemma find_existsb (ch : ascii) (characters : list ascii) :
  match List.find (Ascii.eqb ch) characters with Some _ => true | None => false end
  = existsb (Ascii.eqb ch) characters.
Proof.
  induction characters as [|ch' rest IH]; simpl; [reflexivity|].
  destruct (Ascii.eqb ch ch'); [reflexivity|exact IH].
Qed.

Lemma consume_character_from_container_when (format : string)
    (characters : list ascii) :
  consume_character_from_container pe format characters
  = consume_when (fun ch => existsb (Ascii.eqb ch) characters) pe format.
Proof.
  unfold consume_character_from_container, consume_when.
  rewrite <- find_existsb.
  now destruct (List.find _ characters).
Qed.

(** [find(s) == 0] is [starts_with(s)]. *)
Lemma find_at_start (format s : string) :
  (match find format s with Some O => true | _ => false end) = starts_with format s.
Proof.
  unfold find, starts_with. destruct format as [|ch rest]; simpl.
  - now destruct s.
  - destruct s as [|ch' s']; [reflexivity|].
    destruct (if ascii_dec ch' ch then String.prefix s' rest else false);
      [reflexivity|].
    now destruct (String.index 0 (String ch' s') rest).
Qed.

Lemma prefix_split (s format : string) :
  String.prefix s format = true -> exists post, format = s ++ post.
Proof.
  revert format. induction s as [|ch s IH]; intros format H.
  - now exists format.
  - destruct format as [|ch' rest]; simpl in H; [discriminate|].
    destruct (ascii_dec ch ch') as [->|]; [|discriminate].
    destruct (IH _ H) as [post ->]. now exists post.
Qed.

Lemma consume_string_cases (format s : string) :
  (consume_string format s = Value None /\ starts_with format s = false)
  \/ exists post, format = s ++ post /\ consume_string format s = Value (Some post).
Proof.
  unfold consume_string. pose proof (find_at_start format s) as H.
  destruct (starts_with format s) eqn:E.
  - right. destruct (prefix_split _ _ E) as [post ->]. exists post.
    split; [reflexivity|].
    destruct (find (s ++ post) s) as [[|k]|]; try discriminate.
    unfold substr. rewrite size_append.
    replace (size s <=? size s + size post)%nat with true
      by (symmetry; apply Nat.leb_le; lia).
    simpl. now rewrite advance_append.
  - left. split; [|reflexivity].
    now destruct (find format s) as [[|k]|].
Qed.

(** The repeated consumer over a single-character test: it strips the
    longest run of matching characters, and throws exactly when the run
    reaches the end of the view and the character behind it matches too. *)
Lemma consume_repeatedly_fuel_when (P : ascii -> bool) (fuel : nat) (format : string) :
  size format <= fuel ->
  consume_repeatedly_fuel fuel (consume_when P pe) format
  = if all_chars P format && P pe then Thrown
    else Value (Some (skip_while P format)).
Proof.
  revert format. induction fuel as [|fuel IH]; intros [|ch rest] Hsize;
    simpl in Hsize; try lia.
  - simpl. rewrite consume_when_empty. now destruct (P pe).
  - simpl. rewrite consume_when_empty. now destruct (P pe).
  - cbn [consume_repeatedly_fuel all_chars skip_while].
    rewrite consume_when_cons. destruct (P ch); simpl; [|reflexivity].
    rewrite string_eqb_tail. apply IH. lia.
Qed.

Lemma consume_repeatedly_when (P : ascii -> bool) (format : string) :
  consume_repeatedly (consume_when P pe) format
  = if all_chars P format && P pe then Thrown
    else Value (Some (skip_while P format)).
Proof. apply consume_repeatedly_fuel_when. lia. Qed.

Lemma consume_digits (format : string) :
  consume_repeatedly (fun v => consume_character_from_range pe v "0" "9") format
  = if all_chars is_digit format && is_digit pe then Thrown
    else Value (Some (skip_while is_digit format)).
Proof. exact (consume_repeatedly_when is_digit format). Qed.

End ConsumerFacts.

(** ** The grammar sub-parsers *)

Section SubParserFacts.

Variable pe : ascii.

Lemma consume_start_character_cases (format : string) :
  consume_start_character pe format
  = match format with
    | EmptyString => if Ascii.eqb pe "%" then Thrown else Value None
    | String ch rest => if Ascii.eqb ch "%" then Value (Some rest) else Value None
    end.
Proof. now destruct format. Qed.

Lemma consume_flags_if_any_cases (format : string) :
  consume_flags_if_any pe format
  = match format with
    | EmptyString => if is_flag pe then Thrown else Value ""
    | String ch rest => Value (if is_flag ch then rest else format)
    end.
Proof.
  unfold consume_flags_if_any. rewrite consume_character_from_set_when.
  destruct format as [|ch rest].
  - rewrite consume_when_empty. fold (is_flag pe). now destruct (is_flag pe).
  - rewrite consume_when_cons. fold (is_flag ch). now destruct (is_flag ch).
Qed.

Lemma consume_width_if_any_cases (format : string) :
  consume_width_if_any pe format
  = if Ascii.eqb (front pe format) "*"
    then match format with
         | EmptyString => Thrown
         | String _ rest =>
             Value {| width_substring := rest;
                      width_type_matcher := Some UnsignedIntType |}
         end
    else if all_chars is_digit format && is_digit pe then Thrown
         else Value {| width_substring := skip_while is_digit format;
                       width_type_matcher := None |}.
Proof.
  unfold consume_width_if_any. rewrite consume_digits, consume_character_when.
  unfold consume_when. destruct (Ascii.eqb (front pe format) "*").
  - now destruct format.
  - simpl. now destruct (all_chars is_digit format && is_digit pe).
Qed.

Lemma consume_precision_if_any_cases (format : string) :
  consume_precision_if_any pe format
  = if Ascii.eqb (front pe format) "."
    then match format with
         | EmptyString => Thrown
         | String _ after_dot =>
             if Ascii.eqb (front pe after_dot) "*"
             then match after_dot with
                  | EmptyString => Thrown
                  | String _ rest =>
                      Value {| precision_substring := rest;
                               precision_type_matcher := Some UnsignedIntType |}
                  end
             else if all_chars is_digit after_dot && is_digit pe then Thrown
                  else Value {| precision_substring := skip_while is_digit after_dot;
                                precision_type_matcher := None |}
         end
    else Value {| precision_substring := format; precision_type_matcher := None |}.
Proof.
  unfold consume_precision_if_any. rewrite consume_character_when.
  unfold consume_when at 1. destruct (Ascii.eqb (front pe format) ".");
    [|reflexivity].
  destruct format as [|ch after_dot]; [reflexivity|].
  cbn [substr size String.length Nat.leb advance bind].
  rewrite consume_digits, consume_character_when. unfold consume_when.
  destruct (Ascii.eqb (front pe after_dot) "*").
  - now destruct after_dot.
  - simpl. now destruct (all_chars is_digit after_dot && is_digit pe).
Qed.

(** What each optional stage leaves is a view into the tail of what it
    was given, and its extra matcher, if any, is [UnsignedIntType]. *)

Lemma consume_flags_if_any_suffix (format post : string) :
  consume_flags_if_any pe format = Value post -> suffix_of post format.
Proof.
  rewrite consume_flags_if_any_cases. destruct format as [|ch rest].
  - destruct (is_flag pe); [discriminate|]. intros [= <-]. apply suffix_of_refl.
  - intros [= <-]. destruct (is_flag ch);
      [apply suffix_of_tail|apply suffix_of_refl].
Qed.

Lemma consume_width_if_any_spec (format : string) (w : WidthReturnValue) :
  consume_width_if_any pe format = Value w ->
  suffix_of (width_substring w) format
  /\ (width_type_matcher w = None \/ width_type_matcher w = Some UnsignedIntType).
Proof.
  rewrite consume_width_if_any_cases.
  destruct (Ascii.eqb (front pe format) "*").
  - destruct format as [|ch rest]; [discriminate|]. intros [= <-]. simpl.
    split; [apply suffix_of_tail|now right].
  - destruct (all_chars is_digit format && is_digit pe); [discriminate|].
    intros [= <-]. simpl. split; [apply skip_while_suffix|now left].
Qed.

Lemma consume_precision_if_any_spec (format : string) (p : PrecisionReturnValue) :
  consume_precision_if_any pe format = Value p ->
  suffix_of (precision_substring p) format
  /\ (precision_type_matcher p = None
      \/ precision_type_matcher p = Some UnsignedIntType).
Proof.
  rewrite consume_precision_if_any_cases.
  destruct (Ascii.eqb (front pe format) ".").
  - destruct format as [|ch after_dot]; [discriminate|].
    destruct (Ascii.eqb (front pe after_dot) "*").
    + destruct after_dot as [|ch' rest]; [discriminate|]. intros [= <-]. simpl.
      split; [|now right].
      eapply suffix_of_trans; apply suffix_of_tail.
    + destruct (all_chars is_digit after_dot && is_digit pe); [discriminate|].
      intros [= <-]. simpl. split; [|now left].
      eapply suffix_of_trans; [apply skip_while_suffix|apply suffix_of_tail].
  - intros [= <-]. simpl. split; [apply suffix_of_refl|now left].
Qed.

Lemma consume_when_suffix (P : ascii -> bool) (format post : string) :
  consume_when P pe format = Value (Some post) ->
  exists ch, format = String ch post /\ P ch = true.
Proof.
  destruct format as [|ch rest].
  - rewrite consume_when_empty. now destruct (P pe).
  - rewrite consume_when_cons. destruct (P ch) eqn:E; [|discriminate].
    intros [= <-]. now exists ch.
Qed.

Lemma consume_when_returns_or_throws (P : ascii -> bool) (format : string) :
  returns_or_throws (consume_when P pe format).
Proof.
  destruct format as [|ch rest].
  - rewrite consume_when_empty. destruct (P pe); [now right|left; eauto].
  - rewrite consume_when_cons. destruct (P ch); left; eauto.
Qed.

Lemma consume_length_if_any_suffix (format : string) (l : LengthReturnValue) :
  consume_length_if_any pe format = Value l ->
  suffix_of (length_substring l) format.
Proof.
  unfold consume_length_if_any.
  destruct (consume_string_cases format "hh") as [[-> _]|[post [E ->]]];
    cbn [bind]; [|intros [= <-]; now exists "hh"].
  destruct (consume_string_cases format "ll") as [[-> _]|[post [E ->]]];
    cbn [bind]; [|intros [= <-]; now exists "ll"].
  rewrite !consume_character_when, consume_character_from_set_when.
  repeat
    match goal with
    | |- context [bind (consume_when ?P pe format) _] =>
        let E := fresh "E" in
        destruct (consume_when P pe format) as [[post|]| | |] eqn:E;
        cbn [bind]; try discriminate;
        [intros [= <-]; destruct (consume_when_suffix _ _ _ E) as [ch [-> _]];
         apply suffix_of_tail
        |clear E]
    end.
  intros [= <-]. apply suffix_of_refl.
Qed.

Lemma consume_specifier_spec (format : string) (allowed : list Specifier.t)
    (post : string) (m : PlaceholderType) :
  consume_specifier pe format allowed
  = Value {| specifier_substring := Some post; placeholder_type_matcher := m |} ->
  exists ch, format = String ch post
             /\ In ch (specifiers_to_characters allowed)
             /\ m = specifier_to_placeholder_type_matcher ch.
Proof.
  unfold consume_specifier. rewrite consume_character_from_container_when.
  destruct format as [|ch rest].
  - rewrite consume_when_empty. now destruct (existsb _ _).
  - rewrite consume_when_cons.
    destruct (existsb _ _) eqn:E; [|discriminate].
    intros [= <- <-]. exists ch. repeat split.
    apply existsb_exists in E. destruct E as [ch' [Hin Heq]].
    apply Ascii.eqb_eq in Heq. now subst.
Qed.

End SubParserFacts.

(** ** The placeholder parser *)

Lemma returns_or_throws_bind {A B : Type} (c : outcome A) (k : A -> outcome B) :
  returns_or_throws c -> (forall a, returns_or_throws (k a)) ->
  returns_or_throws (bind c k).
Proof.
  intros [[a ->]| ->] Hk; simpl; [apply Hk|now right].
Qed.

Lemma returns_or_throws_value {A : Type} (a : A) : returns_or_throws (Value a).
Proof. left. now exists a. Qed.

Create HintDb parser.
#[local] Hint Resolve returns_or_throws_value : parser.

Section PlaceholderFacts.

Variable pe : ascii.

Lemma consume_string_returns (format s : string) :
  returns_or_throws (consume_string format s).
Proof.
  destruct (consume_string_cases format s) as [[-> _]|[post [_ ->]]];
    auto with parser.
Qed.

Lemma consume_flags_if_any_returns (format : string) :
  returns_or_throws (consume_flags_if_any pe format).
Proof.
  rewrite consume_flags_if_any_cases. destruct format; auto with parser.
  destruct (is_flag pe); [now right|auto with parser].
Qed.

Lemma consume_width_if_any_returns (format : string) :
  returns_or_throws (consume_width_if_any pe format).
Proof.
  rewrite consume_width_if_any_cases.
  destruct (Ascii.eqb _ _).
  - destruct format; [now right|auto with parser].
  - destruct (_ && _); [now right|auto with parser].
Qed.

Lemma consume_precision_if_any_returns (format : string) :
  returns_or_throws (consume_precision_if_any pe format).
Proof.
  rewrite consume_precision_if_any_cases.
  destruct (Ascii.eqb _ _); [|auto with parser].
  destruct format as [|ch after_dot]; [now right|].
  destruct (Ascii.eqb _ _).
  - destruct after_dot; [now right|auto with parser].
  - destruct (_ && _); [now right|auto with parser].
Qed.

Lemma consume_length_if_any_returns (format : string) :
  returns_or_throws (consume_length_if_any pe format).
Proof.
  unfold consume_length_if_any.
  rewrite !consume_character_when, consume_character_from_set_when.
  repeat (apply returns_or_throws_bind;
          [first [apply consume_string_returns
                 |apply consume_when_returns_or_throws]
          |intros [v|]; auto with parser]).
Qed.

Lemma consume_specifier_returns (format : string) (allowed : list Specifier.t) :
  returns_or_throws (consume_specifier pe format allowed).
Proof.
  unfold consume_specifier. rewrite consume_character_from_container_when.
  destruct format as [|ch rest].
  - rewrite consume_when_empty. destruct (existsb _ _); [now right|].
    simpl. auto with parser.
  - rewrite consume_when_cons. destruct (existsb _ _); simpl; auto with parser.
Qed.

Lemma parse_first_placeholder_try_returns (format : string) :
  returns_or_throws (parse_first_placeholder_try pe format).
Proof.
  unfold parse_first_placeholder_try.
  apply returns_or_throws_bind.
  { unfold consume_start_character. rewrite consume_character_when.
    apply consume_when_returns_or_throws. }
  intros [post_start|]; [|auto with parser].
  apply returns_or_throws_bind; [apply consume_flags_if_any_returns|intros v1].
  apply returns_or_throws_bind; [apply consume_width_if_any_returns|intros w].
  apply returns_or_throws_bind; [apply consume_precision_if_any_returns|intros p].
  apply returns_or_throws_bind; [apply consume_length_if_any_returns|intros l].
  apply returns_or_throws_bind; [apply consume_specifier_returns|intros sp].
  destruct (specifier_substring sp); auto with parser.
Qed.

(** The parser always returns: what its [try] block throws is caught. *)
Lemma parse_first_placeholder_cases (format : string) :
  (exists r, parse_first_placeholder_try pe format = Value (Some r)
             /\ parse_first_placeholder pe format = Value r)
  \/ ((parse_first_placeholder_try pe format = Value None
       \/ parse_first_placeholder_try pe format = Thrown)
      /\ parse_first_placeholder pe format = Value invalid_placeholder).
Proof.
  unfold parse_first_placeholder.
  destruct (parse_first_placeholder_try_returns format) as [[[r|] ->]| ->]; simpl.
  - left. now exists r.
  - right. split; [now left|reflexivity].
  - right. split; [now right|reflexivity].
Qed.

(** The stages behind a [return] from inside the [try] block. *)
Lemma parse_first_placeholder_try_inv (format : string) (r : ReturnValue) :
  parse_first_placeholder_try pe format = Value (Some r) ->
  exists post_start post_flags w p l post m,
    consume_start_character pe format = Value (Some post_start)
    /\ consume_flags_if_any pe post_start = Value post_flags
    /\ consume_width_if_any pe post_flags = Value w
    /\ consume_precision_if_any pe (width_substring w) = Value p
    /\ consume_length_if_any pe (precision_substring p) = Value l
    /\ consume_specifier pe (length_substring l) (allowed_specifiers l)
       = Value {| specifier_substring := Some post; placeholder_type_matcher := m |}
    /\ r = {| is_valid := true;
              type_matchers :=
                (extra_matcher (width_type_matcher w)
                 ++ extra_matcher (precision_type_matcher p) ++ [m])%list;
              placeholder_length := distance format post |}.
Proof.
  unfold parse_first_placeholder_try.
  destruct (consume_start_character pe format) as [[post_start|]| | |] eqn:E0;
    cbn [bind]; try discriminate.
  destruct (consume_flags_if_any pe post_start) as [post_flags| | |] eqn:E1;
    cbn [bind]; try discriminate.
  destruct (consume_width_if_any pe post_flags) as [w| | |] eqn:E2;
    cbn [bind]; try discriminate.
  destruct (consume_precision_if_any pe (width_substring w)) as [p| | |] eqn:E3;
    cbn [bind]; try discriminate.
  destruct (consume_length_if_any pe (precision_substring p)) as [l| | |] eqn:E4;
    cbn [bind]; try discriminate.
  destruct (consume_specifier pe _ _) as [[[post|] m]| | |] eqn:E5;
    cbn [bind specifier_substring placeholder_type_matcher]; try discriminate.
  intros [= <-].
  exists post_start, post_flags, w, p, l, post, m. repeat split; try assumption.
  f_equal. destruct (width_type_matcher w), (precision_type_matcher p); reflexivity.
Qed.

(** A valid placeholder spans a non-empty prefix of the view: the [%],
    what the optional stages took, and the specifier character. *)
Lemma parse_first_placeholder_try_span (format : string) (r : ReturnValue) :
  parse_first_placeholder_try pe format = Value (Some r) ->
  exists middle ch post,
    format = String "%" (middle ++ String ch post)
    /\ is_valid r = true
    /\ placeholder_length r = Z.of_nat (size (String "%" (middle ++ String ch ""))).
Proof.
  intros H. destruct (parse_first_placeholder_try_inv _ _ H)
    as (v0 & v1 & w & p & l & post & m & H0 & H1 & Hw & Hp & Hl & Hs & ->).
  rewrite consume_start_character_cases in H0.
  destruct format as [|c0 rest]; [now destruct (Ascii.eqb pe "%")|].
  destruct (Ascii.eqb c0 "%") eqn:E0; [|discriminate].
  apply Ascii.eqb_eq in E0. subst c0. injection H0 as ->.
  apply consume_flags_if_any_suffix in H1.
  apply consume_width_if_any_spec in Hw. destruct Hw as [Hw _].
  apply consume_precision_if_any_spec in Hp. destruct Hp as [Hp _].
  apply consume_length_if_any_suffix in Hl.
  destruct (consume_specifier_spec _ _ _ _ _ Hs) as [ch [Hch _]].
  pose proof (suffix_of_trans _ _ _ Hl (suffix_of_trans _ _ _ Hp
                (suffix_of_trans _ _ _ Hw H1))) as [middle Hmid].
  rewrite Hch in Hmid. subst v0.
  exists middle, ch, post. repeat split.
  cbn [placeholder_length]. unfold distance.
  rewrite !size_cons, !size_append, !size_cons. change (size "") with 0. lia.
Qed.

End PlaceholderFacts.

(** ** The format scanner *)

Lemma skip_escaped_starting_character_cases (format : string) :
  (exists post, format = "%%" ++ post
                /\ skip_escaped_starting_character format = Value post)
  \/ (starts_with format "%%" = false
      /\ skip_escaped_starting_character format = Value format).
Proof.
  unfold skip_escaped_starting_character.
  destruct (starts_with format "%%") eqn:E; [left|now right].
  destruct (prefix_split _ _ E) as [post ->]. now exists post.
Qed.

Lemma skip_escaped_starting_character_size (format : string) :
  exists post, skip_escaped_starting_character format = Value post
               /\ size post <= size format.
Proof.
  destruct (skip_escaped_starting_character_cases format)
    as [[post [-> H]]|[_ H]]; rewrite H.
  - exists post. split; [reflexivity|]. rewrite size_append. lia.
  - exists format. split; [reflexivity|]. lia.
Qed.

Section ScannerFacts.

Variable pe : ascii.

(** The parser returns, and a valid result spans between one character
    and the whole view. *)
Lemma parse_first_placeholder_length (format : string) :
  exists r, parse_first_placeholder pe format = Value r
            /\ (is_valid r = true ->
                (1 <= placeholder_length r <= Z.of_nat (size format))%Z)
            /\ (is_valid r = false -> r = invalid_placeholder).
Proof.
  destruct (parse_first_placeholder_cases pe format) as [[r [Ht ->]]|[_ ->]].
  - exists r. split; [reflexivity|].
    destruct (parse_first_placeholder_try_span _ _ _ Ht)
      as (middle & ch & post & -> & Hv & Hlen).
    split; [|congruence]. intros _. rewrite Hlen.
    rewrite !size_cons, !size_append, !size_cons. change (size "") with 0. lia.
  - exists invalid_placeholder. split; [reflexivity|].
    split; [discriminate|reflexivity].
Qed.

Lemma scan_round_spec (ch : ascii) (rest : string) (result : list PlaceholderType) :
  exists r skipped,
    parse_first_placeholder pe (String ch rest) = Value r
    /\ 1 <= round_advance r <= size (String ch rest)
    /\ skip_escaped_starting_character (advance (round_advance r) (String ch rest))
       = Value skipped
    /\ scan_round pe (String ch rest) result
       = Value (skipped, (result ++ round_matchers r)%list).
Proof.
  destruct (parse_first_placeholder_length (String ch rest)) as (r & Hr & Hv & Hi).
  unfold scan_round, round_advance, round_matchers. rewrite Hr. cbn [bind].
  destruct (is_valid r) eqn:E.
  - specialize (Hv eq_refl).
    destruct (skip_escaped_starting_character_size
                (advance (Z.to_nat (placeholder_length r)) (String ch rest)))
      as (skipped & Hs & _).
    exists r, skipped. rewrite E. repeat split; try lia; try assumption.
    unfold remove_prefix.
    replace ((0 <=? placeholder_length r)
             && (placeholder_length r <=? Z.of_nat (size (String ch rest))))%Z
      with true by (symmetry; apply andb_true_iff; split; apply Z.leb_le; lia).
    cbn [bind]. now rewrite Hs.
  - destruct (skip_escaped_starting_character_size rest) as (skipped & Hs & _).
    exists r, skipped. rewrite E. rewrite size_cons.
    repeat split; try lia; try assumption.
    unfold remove_prefix. rewrite size_cons.
    replace ((0 <=? 1) && (1 <=? Z.of_nat (S (size rest))))%Z
      with true by (symmetry; apply andb_true_iff; split; apply Z.leb_le; lia).
    cbn [bind]. change (advance (Z.to_nat 1) (String ch rest)) with rest.
    rewrite Hs. cbn [bind]. now rewrite app_nil_r.
Qed.

(** Every round leaves a strictly shorter view. *)
Lemma scan_round_progress (ch : ascii) (rest : string)
    (result : list PlaceholderType) :
  exists substring' result',
    scan_round pe (String ch rest) result = Value (substring', result')
    /\ size substring' < size (String ch rest).
Proof.
  destruct (scan_round_spec ch rest result) as (r & skipped & _ & Hadv & Hs & ->).
  exists skipped, (result ++ round_matchers r)%list. split; [reflexivity|].
  destruct (skip_escaped_starting_character_size
              (advance (round_advance r) (String ch rest))) as (post & Hp & Hle).
  rewrite Hs in Hp. injection Hp as <-.
  rewrite size_advance in Hle. lia.
Qed.

(** A budget of as many rounds as the view has characters is enough. *)
Lemma scan_loop_returns (rounds : nat) (substring : string)
    (result : list PlaceholderType) :
  size substring <= rounds ->
  exists matchers, scan_loop pe rounds substring result = Value matchers.
Proof.
  revert substring result. induction rounds as [|rounds IH];
    intros [|ch rest] result Hsize; simpl; eauto.
  - rewrite size_cons in Hsize. lia.
  - destruct (scan_round_progress ch rest result) as (v' & res' & -> & Hlt).
    cbn [bind]. apply IH. rewrite size_cons in *. lia.
Qed.

(** A larger budget does not change what the loop returns. *)
Lemma scan_loop_more_rounds (rounds rounds' : nat) (substring : string)
    (result matchers : list PlaceholderType) :
  scan_loop pe rounds substring result = Value matchers ->
  rounds <= rounds' ->
  scan_loop pe rounds' substring result = Value matchers.
Proof.
  revert rounds' substring result. induction rounds as [|rounds IH];
    intros rounds' [|ch rest] result H Hle; simpl in H.
  - destruct rounds'; exact H.
  - discriminate.
  - destruct rounds'; exact H.
  - destruct rounds' as [|rounds']; [lia|]. simpl.
    destruct (scan_round pe (String ch rest) result) as [[v' res']| | |];
      try discriminate.
    cbn [bind] in *. apply IH; [exact H|lia].
Qed.

Lemma parse_format_to_placeholder_matchers_returns (format : string) :
  exists matchers, parse_format_to_placeholder_matchers pe format = Value matchers.
Proof.
  unfold parse_format_to_placeholder_matchers.
  destruct (skip_escaped_starting_character_size format) as (post & -> & Hle).
  cbn [bind]. now apply scan_loop_returns.
Qed.

End ScannerFacts.

(** ** Closed forms used to run the parser on views with an unknown tail *)

Section ClosedForms.

Variable pe : ascii.

Lemma consume_string_starts_with (format s : string) :
  consume_string format s
  = if starts_with format s then Value (Some (advance (size s) format))
    else Value None.
Proof.
  destruct (consume_string_cases format s) as [[-> ->]|[post [-> ->]]];
    [reflexivity|].
  unfold starts_with.
  replace (String.prefix s (s ++ post)) with true.
  - now rewrite advance_append.
  - symmetry. clear. induction s as [|ch s IH]; simpl; [now destruct post|].
    destruct (ascii_dec ch ch); [exact IH|contradiction].
Qed.

Lemma consume_length_if_any_cases (format : string) :
  consume_length_if_any pe format
  = if starts_with format "hh"
    then Value {| length_substring := advance 2 format;
                  allowed_specifiers := integer_specifiers |}
    else if starts_with format "ll"
    then Value {| length_substring := advance 2 format;
                  allowed_specifiers := integer_specifiers |}
    else match format with
         | EmptyString =>
             if Ascii.eqb pe "l" || Ascii.eqb pe "L" || is_short_length pe
             then Thrown
             else Value {| length_substring := "";
                           allowed_specifiers := all_specifiers |}
         | String ch rest =>
             if Ascii.eqb ch "l"
             then Value {| length_substring := rest;
                           allowed_specifiers := long_specifiers |}
             else if Ascii.eqb ch "L"
             then Value {| length_substring := rest;
                           allowed_specifiers := long_double_specifiers |}
             else if is_short_length ch
             then Value {| length_substring := rest;
                           allowed_specifiers := integer_specifiers |}
             else Value {| length_substring := format;
                           allowed_specifiers := all_specifiers |}
         end.
Proof.
  unfold consume_length_if_any. rewrite !consume_string_starts_with.
  destruct (starts_with format "hh"); [reflexivity|].
  destruct (starts_with format "ll"); [reflexivity|]. cbn [bind].
  rewrite !consume_character_when, consume_character_from_set_when.
  destruct format as [|ch rest].
  - rewrite !consume_when_empty. fold (is_short_length pe).
    destruct (Ascii.eqb pe "l"); [reflexivity|].
    destruct (Ascii.eqb pe "L"); [reflexivity|].
    now destruct (is_short_length pe).
  - rewrite !consume_when_cons. fold (is_short_length ch).
    destruct (Ascii.eqb ch "l"); [reflexivity|].
    destruct (Ascii.eqb ch "L"); [reflexivity|].
    now destruct (is_short_length ch).
Qed.

Lemma consume_specifier_cases (format : string) (allowed : list Specifier.t) :
  consume_specifier pe format allowed
  = match format with
    | EmptyString =>
        if existsb (Ascii.eqb pe) (specifiers_to_characters allowed) then Thrown
        else Value {| specifier_substring := None;
                      placeholder_type_matcher := Unconstrained |}
    | String ch rest =>
        if existsb (Ascii.eqb ch) (specifiers_to_characters allowed)
        then Value {| specifier_substring := Some rest;
                      placeholder_type_matcher :=
                        specifier_to_placeholder_type_matcher ch |}
        else Value {| specifier_substring := None;
                      placeholder_type_matcher := Unconstrained |}
    end.
Proof.
  unfold consume_specifier. rewrite consume_character_from_container_when.
  destruct format as [|ch rest].
  - rewrite consume_when_empty. now destruct (existsb _ _).
  - rewrite consume_when_cons. now destruct (existsb _ _).
Qed.

End ClosedForms.

Lemma distance_cons (ch : ascii) (format post : string) :
  distance (String ch format) post = (1 + distance format post)%Z.
Proof. unfold distance. rewrite size_cons. lia. Qed.

Lemma distance_same (format : string) : distance format format = 0%Z.
Proof. unfold distance. lia. Qed.

(** Runs the placeholder parser stage by stage through the closed forms. *)
Ltac run_stages :=
  unfold parse_first_placeholder, parse_first_placeholder_try;
  repeat first
    [ rewrite consume_start_character_cases
    | rewrite consume_flags_if_any_cases
    | rewrite consume_width_if_any_cases
    | rewrite consume_precision_if_any_cases
    | rewrite consume_length_if_any_cases
    | rewrite consume_specifier_cases
    | progress cbn ].

(** Settles a closed run of the scanner for each of the 256 characters
    that can stand behind the format. *)
Ltac for_every_past_end pe :=
  destruct pe as [[] [] [] [] [] [] [] []]; vm_compute; reflexivity.

(** ** The scanner in a constant evaluation *)

Lemma is_digit_not_NUL : is_digit NUL = false.
Proof. reflexivity. Qed.

(** Behind a format stands its terminator: no stage in front of the
    specifier throws. *)
Lemma optional_stages_return_on_literal (format : string) :
  exists post_flags w p l,
    consume_flags_if_any NUL format = Value post_flags
    /\ consume_width_if_any NUL post_flags = Value w
    /\ consume_precision_if_any NUL (width_substring w) = Value p
    /\ consume_length_if_any NUL (precision_substring p) = Value l.
Proof.
  assert (Hf : exists v, consume_flags_if_any NUL format = Value v).
  { rewrite consume_flags_if_any_cases. destruct format; simpl; eauto. }
  destruct Hf as [v1 H1].
  assert (Hw : exists w, consume_width_if_any NUL v1 = Value w).
  { rewrite consume_width_if_any_cases, is_digit_not_NUL, andb_false_r.
    destruct v1 as [|ch rest]; [simpl; eauto|].
    destruct (Ascii.eqb _ _); eauto. }
  destruct Hw as [w Hw].
  assert (Hp : exists p, consume_precision_if_any NUL (width_substring w) = Value p).
  { rewrite consume_precision_if_any_cases, is_digit_not_NUL.
    destruct (width_substring w) as [|ch after_dot]; [simpl; eauto|].
    destruct (Ascii.eqb _ _); [|eauto]. rewrite andb_false_r.
    destruct after_dot as [|ch' rest]; [simpl; eauto|].
    destruct (Ascii.eqb _ _); eauto. }
  destruct Hp as [p Hp].
  assert (Hl : exists l, consume_length_if_any NUL (precision_substring p) = Value l).
  { rewrite consume_length_if_any_cases.
    destruct (starts_with _ "hh"); [eauto|].
    destruct (starts_with _ "ll"); [eauto|].
    destruct (precision_substring p) as [|ch rest]; [simpl; eauto|].
    destruct (Ascii.eqb ch "l"); [eauto|].
    destruct (Ascii.eqb ch "L"); [eauto|].
    destruct (is_short_length ch); eauto. }
  destruct Hl as [l Hl].
  exists v1, w, p, l. repeat split; assumption.
Qed.

Lemma NUL_is_no_specifier (allowed : list Specifier.t) :
  existsb (Ascii.eqb NUL) (specifiers_to_characters allowed) = false.
Proof.
  induction allowed as [|sp allowed IH]; [reflexivity|].
  simpl. rewrite IH. now destruct sp.
Qed.

(** Behind a terminator the [try] block throws on no view. *)
Lemma parse_first_placeholder_try_on_literal (format : string) :
  parse_first_placeholder_try NUL format <> Thrown.
Proof.
  unfold parse_first_placeholder_try. rewrite consume_start_character_cases.
  destruct format as [|ch rest]; [discriminate|].
  destruct (Ascii.eqb ch "%"); [|discriminate]. cbn [bind].
  destruct (optional_stages_return_on_literal rest)
    as (v1 & w & p & l & H1 & Hw & Hp & Hl).
  rewrite H1. cbn [bind]. rewrite Hw. cbn [bind]. rewrite Hp. cbn [bind].
  rewrite Hl. cbn [bind]. rewrite consume_specifier_cases.
  destruct (length_substring l) as [|sc post].
  - rewrite NUL_is_no_specifier. discriminate.
  - destruct (existsb _ _); discriminate.
Qed.

Lemma advance_suffix (n : nat) (format : string) :
  suffix_of (advance n format) format.
Proof.
  revert format. induction n as [|n IH]; intros [|ch rest]; simpl;
    try apply suffix_of_refl.
  eapply suffix_of_trans; [apply IH|apply suffix_of_tail].
Qed.

Lemma skip_escaped_starting_character_suffix (format post : string) :
  skip_escaped_starting_character format = Value post -> suffix_of post format.
Proof.
  destruct (skip_escaped_starting_character_cases format)
    as [[post' [-> ->]]|[_ ->]]; intros [= <-];
    [now exists "%%"|apply suffix_of_refl].
Qed.

Section ConstantEvaluation.

Variable pe : ascii.

(** A constant evaluation of the parser ends at the [throw], or gives
    what the parser gives at run time. *)
Lemma constant_parse_first_placeholder_cases (format : string) :
  (parse_first_placeholder_try pe format = Thrown
   /\ constant_parse_first_placeholder pe format = Thrown)
  \/ (parse_first_placeholder_try pe format <> Thrown
      /\ constant_parse_first_placeholder pe format
         = parse_first_placeholder pe format).
Proof.
  unfold constant_parse_first_placeholder, parse_first_placeholder.
  destruct (parse_first_placeholder_try_returns pe format) as [[x ->]| ->].
  - right. split; [discriminate|reflexivity].
  - left. split; reflexivity.
Qed.

Lemma constant_scan_round_cases (substring : string)
    (result : list PlaceholderType) :
  (parse_first_placeholder_try pe substring = Thrown
   /\ constant_scan_round pe substring result = Thrown)
  \/ (parse_first_placeholder_try pe substring <> Thrown
      /\ constant_scan_round pe substring result
         = scan_round pe substring result).
Proof.
  unfold constant_scan_round, scan_round.
  destruct (constant_parse_first_placeholder_cases substring)
    as [[Ht ->]|[Ht ->]]; [left|right]; split; auto.
Qed.

Lemma scan_round_suffix (ch : ascii) (rest : string)
    (result : list PlaceholderType) (substring' : string)
    (result' : list PlaceholderType) :
  scan_round pe (String ch rest) result = Value (substring', result') ->
  substring' <> String ch rest /\ suffix_of substring' (String ch rest).
Proof.
  destruct (scan_round_spec pe ch rest result) as (r & skipped & _ & Ha & Hs & ->).
  intros [= <- <-].
  assert (Hsuf : suffix_of skipped (String ch rest)).
  { eapply suffix_of_trans;
      [apply (skip_escaped_starting_character_suffix _ _ Hs)|apply advance_suffix]. }
  split; [|exact Hsuf].
  intros E. apply skip_escaped_starting_character_suffix, suffix_of_size in Hs.
  rewrite size_advance, E in Hs. lia.
Qed.

(** As long as the [try] block throws on none of the views the loop can
    meet, the constant evaluation of the loop is its run. *)
Lemma constant_scan_loop_without_throw (rounds : nat) (substring : string)
    (result : list PlaceholderType) :
  (forall view, view <> "" -> suffix_of view substring ->
                parse_first_placeholder_try pe view <> Thrown) ->
  constant_scan_loop pe rounds substring result
  = scan_loop pe rounds substring result.
Proof.
  revert substring result. induction rounds as [|rounds IH];
    intros [|ch rest] result Hno; try reflexivity.
  cbn [constant_scan_loop scan_loop empty].
  destruct (constant_scan_round_cases (String ch rest) result)
    as [[Ht _]|[_ ->]].
  - elim (Hno (String ch rest)); [discriminate|apply suffix_of_refl|exact Ht].
  - destruct (scan_round pe (String ch rest) result) as [[v' res']| | |] eqn:E;
      try reflexivity.
    cbn [bind]. apply IH. intros view Hne Hsuf. apply Hno; [exact Hne|].
    eapply suffix_of_trans; [exact Hsuf|].
    now apply (scan_round_suffix ch rest result v' res').
Qed.

Lemma constant_scan_without_throw (format : string) :
  (forall view, view <> "" -> suffix_of view format ->
                parse_first_placeholder_try pe view <> Thrown) ->
  constant_parse_format_to_placeholder_matchers pe format
  = parse_format_to_placeholder_matchers pe format.
Proof.
  intros Hno.
  unfold constant_parse_format_to_placeholder_matchers,
    parse_format_to_placeholder_matchers.
  destruct (skip_escaped_starting_character format) as [start| | |] eqn:E;
    try reflexivity.
  cbn [bind]. apply constant_scan_loop_without_throw.
  intros view Hne Hsuf. apply Hno; [exact Hne|].
  eapply suffix_of_trans; [exact Hsuf|].
  now apply skip_escaped_starting_character_suffix.
Qed.

(** A constant evaluation of the scanner ends at a [throw], or gives what
    the scanner gives at run time. *)
Lemma constant_scan_loop_cases (rounds : nat) (substring : string)
    (result : list PlaceholderType) :
  constant_scan_loop pe rounds substring result = Thrown
  \/ constant_scan_loop pe rounds substring result
     = scan_loop pe rounds substring result.
Proof.
  revert substring result. induction rounds as [|rounds IH];
    intros [|ch rest] result; try (now right).
  cbn [constant_scan_loop scan_loop empty].
  destruct (constant_scan_round_cases (String ch rest) result)
    as [[_ ->]|[_ ->]]; [now left|].
  destruct (scan_round pe (String ch rest) result) as [[v' res']| | |];
    try (now right).
  cbn [bind]. apply IH.
Qed.

Lemma constant_scan_cases (format : string) :
  constant_parse_format_to_placeholder_matchers pe format = Thrown
  \/ constant_parse_format_to_placeholder_matchers pe format
     = parse_format_to_placeholder_matchers pe format.
Proof.
  unfold constant_parse_format_to_placeholder_matchers,
    parse_format_to_placeholder_matchers.
  destruct (skip_escaped_starting_character format); try (now right).
  cbn [bind]. apply constant_scan_loop_cases.
Qed.

End ConstantEvaluation.

(** Behind a terminator the constant evaluation of the scanner is its
    run, and returns. *)
Lemma constant_scan_on_literal (format : string) :
  exists matchers,
    constant_parse_format_to_placeholder_matchers NUL format = Value matchers
    /\ parse_format_to_placeholder_matchers NUL format = Value matchers.
Proof.
  destruct (parse_format_to_placeholder_matchers_returns NUL format)
    as [matchers H].
  exists matchers. split; [|exact H].
  rewrite constant_scan_without_throw; [exact H|].
  intros view _ _. apply parse_first_placeholder_try_on_literal.
Qed.

(** ** The loop of the scanner, round by round *)

Lemma scan_steps_loop (pe : ascii) (rounds : nat) (view : string)
    (result found : list PlaceholderType) :
  scan_steps pe rounds view result "" found ->
  forall budget, size view <= budget ->
                 scan_loop pe budget view result = Value found.
Proof.
  remember "" as final eqn:Ef.
  induction 1 as [view result|n view view' view'' result result' result''
                              Hne Hround Hsteps IH]; intros budget Hsize.
  - subst view. now destruct budget.
  - destruct view as [|ch rest]; [discriminate|].
    destruct (scan_round_progress pe ch rest result) as (v & res & Hv & Hlt).
    rewrite Hround in Hv. injection Hv as <- <-.
    destruct budget as [|budget]; [rewrite size_cons in Hsize; lia|].
    cbn [scan_loop empty]. rewrite Hround. cbn [bind].
    apply IH; [exact Ef|]. rewrite size_cons in *. lia.
Qed.

Lemma scan_loop_steps (pe : ascii) (budget : nat) (view : string)
    (result found : list PlaceholderType) :
  scan_loop pe budget view result = Value found ->
  exists rounds, rounds <= size view /\ scan_steps pe rounds view result "" found.
Proof.
  revert view result. induction budget as [|budget IH];
    intros [|ch rest] result; cbn [scan_loop empty]; try discriminate.
  - intros [= <-]. exists 0. split; [lia|constructor].
  - intros [= <-]. exists 0. split; [lia|constructor].
  - destruct (scan_round_progress pe ch rest result) as (v & res & Hv & Hlt).
    rewrite Hv. cbn [bind]. intros H.
    destruct (IH _ _ H) as (rounds & Hle & Hsteps).
    exists (S rounds). split; [lia|].
    now apply (scan_steps_round pe rounds (String ch rest) v "" result res found).
Qed.

(** * The claims *)

(** ** Runs of the scanner on the formats the specification lists *)

Example scan_single_placeholder (pe : ascii) :
  parse_format_to_placeholder_matchers pe "%d" = Value [SignedIntType].
Proof. for_every_past_end pe. Qed.

Example scan_sentence (pe : ascii) :
  parse_format_to_placeholder_matchers pe "Hello %s, you are %d years old"
  = Value [StringType; SignedIntType].
Proof. for_every_past_end pe. Qed.

(** The [catch] is reached: behind a format that ends in [%], a character
    that is a specifier makes [substr] throw on the empty view. *)
Example try_block_throws_on_truncated_input :
  parse_first_placeholder_try "d" "%" = Thrown
  /\ parse_first_placeholder "d" "%" = Value invalid_placeholder.
Proof. split; reflexivity. Qed.

(** ** C1 *)

(** C1, as stated, fails: the scan of ["100% sure %d"] is not [[SignedIntType]]
    (shown behind a string literal). *)
Lemma scan_100_percent_sure_not_only_signed :
  parse_format_to_placeholder_matchers NUL "100% sure %d" <> Value [SignedIntType].
Proof. vm_compute. discriminate. Qed.

(** C1 (amended): the scan of ["100% sure %d"] is [[StringType; SignedIntType]]:
    the space after the [%] is a flag and the [s] of [sure] a specifier, so
    ["% s"] is a valid placeholder of three characters; a [%] that starts
    no valid placeholder, as in ["100%, sure %d"], is skipped as literal
    text and only the [%d] contributes. *)
Theorem scan_100_percent_sure (pe : ascii) :
  parse_format_to_placeholder_matchers pe "100% sure %d"
  = Value [StringType; SignedIntType]
  /\ (forall rest,
        parse_first_placeholder pe (String "%" (String " " (String "s" rest)))
        = Value {| is_valid := true; type_matchers := [StringType];
                   placeholder_length := 3 |})
  /\ parse_format_to_placeholder_matchers pe "100%, sure %d"
     = Value [SignedIntType].
Proof.
  split; [for_every_past_end pe|]. split; [|for_every_past_end pe].
  intros rest. run_stages. now rewrite !distance_cons, distance_same.
Qed.

(** ** C2 *)

(** C2: where truncated input is not caught.  The consumers read past the
    end of an empty view without a check, and no exception comes of the
    read; the only exception is the [out_of_range] of the [substr(1)] that
    follows when the character found there passes the test.  In the
    constant evaluation of the [static_assert] that exception ends the
    evaluation, the handler of the placeholder parser notwithstanding:
    on the view ["%"] stored in front of a [d] the placeholder parser, the
    scanner and the verification all end at the [throw].  At run time the
    same view gives the invalid placeholder and the empty scan, and behind
    a terminator the constant evaluation of every format returns. *)
Theorem truncated_placeholder_ends_constant_evaluation :
  parse_first_placeholder_try "d" "%" = Thrown
  /\ constant_parse_first_placeholder "d" "%" = Thrown
  /\ constant_parse_format_to_placeholder_matchers "d" "%" = Thrown
  /\ (forall (T : Type) (args : list T),
        verify_format_with_arguments "d" "%" args = Thrown)
  /\ parse_first_placeholder "d" "%" = Value invalid_placeholder
  /\ (forall pe, parse_format_to_placeholder_matchers pe "%" = Value [])
  /\ (forall format,
        exists matchers,
          constant_parse_format_to_placeholder_matchers NUL format
          = Value matchers).
Proof.
  split; [reflexivity|]. split; [reflexivity|]. split; [reflexivity|].
  split; [intros T args; reflexivity|]. split; [reflexivity|].
  split; [intros pe; for_every_past_end pe|].
  intros format. destruct (constant_scan_on_literal format) as (matchers & H & _).
  now exists matchers.
Qed.

(** ** C3 *)

Lemma parse_first_placeholder_valid (pe : ascii) (format : string)
    (r : ReturnValue) :
  parse_first_placeholder pe format = Value r -> is_valid r = true ->
  parse_first_placeholder_try pe format = Value (Some r).
Proof.
  intros H Hv.
  destruct (parse_first_placeholder_cases pe format) as [[r' [Ht Hr]]|[_ Hr]];
    rewrite Hr in H; injection H as <-; [exact Ht|discriminate].
Qed.

(** The width stage asks for an argument exactly when it has consumed a
    [*], and the precision stage when it has consumed [.*]. *)
Lemma width_matcher_iff_star (pe : ascii) (format : string) (w : WidthReturnValue) :
  consume_width_if_any pe format = Value w ->
  (exists rest, format = String "*" rest) <-> width_type_matcher w <> None.
Proof.
  rewrite consume_width_if_any_cases.
  destruct (Ascii.eqb (front pe format) "*") eqn:E.
  - destruct format as [|ch rest]; [discriminate|]. intros [= <-].
    apply Ascii.eqb_eq in E. simpl in E. subst ch. simpl.
    split; [discriminate|]. intros _. now exists rest.
  - destruct (_ && _); [discriminate|]. intros [= <-]. simpl.
    split; [|congruence]. intros [rest ->]. discriminate.
Qed.

Lemma precision_matcher_iff_star (pe : ascii) (format : string)
    (p : PrecisionReturnValue) :
  consume_precision_if_any pe format = Value p ->
  (exists rest, format = String "." (String "*" rest))
  <-> precision_type_matcher p <> None.
Proof.
  rewrite consume_precision_if_any_cases.
  destruct (Ascii.eqb (front pe format) ".") eqn:E.
  - destruct format as [|ch after_dot]; [discriminate|].
    apply Ascii.eqb_eq in E. simpl in E. subst ch.
    destruct (Ascii.eqb (front pe after_dot) "*") eqn:E'.
    + destruct after_dot as [|ch rest]; [discriminate|]. intros [= <-].
      apply Ascii.eqb_eq in E'. simpl in E'. subst ch. simpl.
      split; [discriminate|]. intros _. now exists rest.
    + destruct (_ && _); [discriminate|]. intros [= <-]. simpl.
      split; [|congruence]. intros [rest [= ->]]. discriminate.
  - intros [= <-]. simpl. split; [|congruence]. intros [rest ->]. discriminate.
Qed.

(** C3: the matchers of a valid placeholder are, in this order, the extra
    matcher of the width stage (there is one exactly when the width is a
    [*]), the extra matcher of the precision stage (exactly when the
    precision is [.*]) and the matcher of the specifier stage, each stage
    run on the view the one before it left; the scan of ["%*.*f"] is
    [[UnsignedIntType; UnsignedIntType; FloatingType]]. *)
Theorem placeholder_matchers_in_argument_order (pe : ascii) :
  (forall format r,
     parse_first_placeholder pe format = Value r -> is_valid r = true ->
     exists post_start post_flags w p l post m,
       consume_start_character pe format = Value (Some post_start)
       /\ consume_flags_if_any pe post_start = Value post_flags
       /\ consume_width_if_any pe post_flags = Value w
       /\ consume_precision_if_any pe (width_substring w) = Value p
       /\ consume_length_if_any pe (precision_substring p) = Value l
       /\ consume_specifier pe (length_substring l) (allowed_specifiers l)
          = Value {| specifier_substring := Some post;
                     placeholder_type_matcher := m |}
       /\ ((exists rest, post_flags = String "*" rest)
           <-> width_type_matcher w <> None)
       /\ ((exists rest, width_substring w = String "." (String "*" rest))
           <-> precision_type_matcher p <> None)
       /\ type_matchers r
          = (extra_matcher (width_type_matcher w)
             ++ extra_matcher (precision_type_matcher p) ++ [m])%list)
  /\ parse_format_to_placeholder_matchers pe "%*.*f"
     = Value [UnsignedIntType; UnsignedIntType; FloatingType].
Proof.
  split; [|for_every_past_end pe].
  intros format r H Hv.
  destruct (parse_first_placeholder_try_inv pe format r
              (parse_first_placeholder_valid pe format r H Hv))
    as (v0 & v1 & w & p & l & post & m & H0 & H1 & Hw & Hp & Hl & Hs & ->).
  exists v0, v1, w, p, l, post, m.
  pose proof (width_matcher_iff_star _ _ _ Hw).
  pose proof (precision_matcher_iff_star _ _ _ Hp).
  repeat split; try assumption; tauto.
Qed.

(** C3 at ["%*.*f"], behind a string literal: the stages that lead to the
    three matchers. *)
Lemma placeholder_matchers_in_argument_order_witness :
  exists post_start post_flags w p l post m,
    consume_start_character NUL "%*.*f" = Value (Some post_start)
    /\ consume_flags_if_any NUL post_start = Value post_flags
    /\ consume_width_if_any NUL post_flags = Value w
    /\ consume_precision_if_any NUL (width_substring w) = Value p
    /\ consume_length_if_any NUL (precision_substring p) = Value l
    /\ consume_specifier NUL (length_substring l) (allowed_specifiers l)
       = Value {| specifier_substring := Some post;
                  placeholder_type_matcher := m |}
    /\ ((exists rest, post_flags = String "*" rest)
        <-> width_type_matcher w <> None)
    /\ ((exists rest, width_substring w = String "." (String "*" rest))
        <-> precision_type_matcher p <> None)
    /\ [UnsignedIntType; UnsignedIntType; FloatingType]
       = (extra_matcher (width_type_matcher w)
          ++ extra_matcher (precision_type_matcher p) ++ [m])%list.
Proof.
  exact (proj1 (placeholder_matchers_in_argument_order NUL) "%*.*f"
           {| is_valid := true;
              type_matchers := [UnsignedIntType; UnsignedIntType; FloatingType];
              placeholder_length := 5 |} eq_refl eq_refl).
Defined.

(** ** C4 *)

(** C4: [l] allows [d] and [L] allows [f], so ["%ld"] and ["%Lf"] are
    placeholders of three characters with the matchers of [d] and of [f];
    [d] is not allowed after [L], so a view that starts with ["%Ld"] holds
    no placeholder at its start, and the scanner goes on one character
    further, behind the [%]; the three scans are [[SignedIntType]],
    [[FloatingType]] and [[]]. *)
Theorem length_modifier_restricts_specifier (pe : ascii) :
  (forall rest,
     parse_first_placeholder pe (String "%" (String "l" (String "d" rest)))
     = Value {| is_valid := true; type_matchers := [SignedIntType];
                placeholder_length := 3 |})
  /\ (forall rest,
        parse_first_placeholder pe (String "%" (String "L" (String "f" rest)))
        = Value {| is_valid := true; type_matchers := [FloatingType];
                   placeholder_length := 3 |})
  /\ (forall rest,
        parse_first_placeholder pe (String "%" (String "L" (String "d" rest)))
        = Value invalid_placeholder)
  /\ scan_round pe "%Ld" [] = Value ("Ld", [])
  /\ parse_format_to_placeholder_matchers pe "%ld" = Value [SignedIntType]
  /\ parse_format_to_placeholder_matchers pe "%Lf" = Value [FloatingType]
  /\ parse_format_to_placeholder_matchers pe "%Ld" = Value [].
Proof.
  split; [|split; [|split; [|repeat split; for_every_past_end pe]]];
    intros rest; run_stages; try reflexivity;
    now rewrite !distance_cons, distance_same.
Qed.

(** ** C5 *)

(** The stages in front of the specifier give up only by running off the
    end of the view. *)
Lemma optional_stage_throws_at_end (pe : ascii) (format : string) :
  (consume_flags_if_any pe format = Thrown -> format = "")
  /\ (consume_width_if_any pe format = Thrown -> all_chars is_digit format = true)
  /\ (consume_precision_if_any pe format = Thrown ->
      format = ""
      \/ exists digits, format = String "." digits
                        /\ all_chars is_digit digits = true)
  /\ (consume_length_if_any pe format = Thrown -> format = "").
Proof.
  repeat split.
  - rewrite consume_flags_if_any_cases. now destruct format.
  - rewrite consume_width_if_any_cases.
    destruct (Ascii.eqb (front pe format) "*").
    + now destruct format.
    + destruct (all_chars is_digit format); [reflexivity|discriminate].
  - rewrite consume_precision_if_any_cases.
    destruct (Ascii.eqb (front pe format) ".") eqn:E; [|discriminate].
    destruct format as [|ch after_dot]; [now left|]. intros H. right.
    apply Ascii.eqb_eq in E. simpl in E. subst ch. exists after_dot.
    split; [reflexivity|].
    destruct (Ascii.eqb (front pe after_dot) "*").
    + now destruct after_dot.
    + destruct (all_chars is_digit after_dot); [reflexivity|discriminate].
  - rewrite consume_length_if_any_cases.
    destruct (starts_with format "hh"); [discriminate|].
    destruct (starts_with format "ll"); [discriminate|].
    destruct format as [|ch rest]; [reflexivity|].
    destruct (Ascii.eqb ch "l"); [discriminate|].
    destruct (Ascii.eqb ch "L"); [discriminate|].
    now destruct (is_short_length ch).
Qed.

(** Once the stages in front of the specifier have returned, the parse is
    valid exactly when the specifier stage consumes a character. *)
Lemma parse_valid_iff_specifier (pe : ascii) (rest post_flags : string)
    (w : WidthReturnValue) (p : PrecisionReturnValue) (l : LengthReturnValue) :
  consume_flags_if_any pe rest = Value post_flags ->
  consume_width_if_any pe post_flags = Value w ->
  consume_precision_if_any pe (width_substring w) = Value p ->
  consume_length_if_any pe (precision_substring p) = Value l ->
  exists r,
    parse_first_placeholder pe (String "%" rest) = Value r
    /\ (is_valid r = true <->
        exists post m,
          consume_specifier pe (length_substring l) (allowed_specifiers l)
          = Value {| specifier_substring := Some post;
                     placeholder_type_matcher := m |}).
Proof.
  intros H1 Hw Hp Hl.
  unfold parse_first_placeholder, parse_first_placeholder_try.
  rewrite consume_start_character_cases. cbn [Ascii.eqb Bool.eqb bind].
  rewrite H1. cbn [bind]. rewrite Hw. cbn [bind]. rewrite Hp. cbn [bind].
  rewrite Hl. cbn [bind].
  destruct (consume_specifier_returns pe (length_substring l)
              (allowed_specifiers l)) as [[[[post|] m] ->]| ->];
    cbn [bind specifier_substring try_catch];
    eexists; (split; [reflexivity|]); cbn [is_valid invalid_placeholder];
    split; try discriminate; eauto.
  - intros (post & m' & H). discriminate.
  - intros (post & m' & H). discriminate.
Qed.

(** C5: the flags, width and precision stages leave a view that does not
    start with what they look for as it is, without a matcher; a parse
    that fails reports [is_valid = false], no matcher and the length zero;
    and once the four stages in front of the specifier have returned for
    the view behind a [%], the parse is valid exactly when the specifier
    stage consumes a character.  Those four stages return on every view
    that is followed by its terminator, and throw only on a view that ends
    inside them (the truncated input of C2). *)
Theorem only_specifier_failure_is_fatal (pe : ascii) :
  (forall ch rest,
     (is_flag ch = false ->
      consume_flags_if_any pe (String ch rest) = Value (String ch rest))
     /\ (ch <> "*"%char -> is_digit ch = false ->
         consume_width_if_any pe (String ch rest)
         = Value {| width_substring := String ch rest;
                    width_type_matcher := None |})
     /\ (ch <> "."%char ->
         consume_precision_if_any pe (String ch rest)
         = Value {| precision_substring := String ch rest;
                    precision_type_matcher := None |}))
  /\ (forall format,
        exists r, parse_first_placeholder pe format = Value r
                  /\ (is_valid r = false ->
                      type_matchers r = [] /\ placeholder_length r = 0%Z))
  /\ (forall rest post_flags w p l,
        consume_flags_if_any pe rest = Value post_flags ->
        consume_width_if_any pe post_flags = Value w ->
        consume_precision_if_any pe (width_substring w) = Value p ->
        consume_length_if_any pe (precision_substring p) = Value l ->
        exists r,
          parse_first_placeholder pe (String "%" rest) = Value r
          /\ (is_valid r = true <->
              exists post m,
                consume_specifier pe (length_substring l) (allowed_specifiers l)
                = Value {| specifier_substring := Some post;
                           placeholder_type_matcher := m |}))
  /\ (forall rest,
        exists post_flags w p l,
          consume_flags_if_any NUL rest = Value post_flags
          /\ consume_width_if_any NUL post_flags = Value w
          /\ consume_precision_if_any NUL (width_substring w) = Value p
          /\ consume_length_if_any NUL (precision_substring p) = Value l)
  /\ (forall format,
        (consume_flags_if_any pe format = Thrown -> format = "")
        /\ (consume_width_if_any pe format = Thrown ->
            all_chars is_digit format = true)
        /\ (consume_precision_if_any pe format = Thrown ->
            format = ""
            \/ exists digits, format = String "." digits
                              /\ all_chars is_digit digits = true)
        /\ (consume_length_if_any pe format = Thrown -> format = "")).
Proof.
  split; [|split; [|split; [|split]]].
  - intros ch rest. repeat split.
    + intros H. rewrite consume_flags_if_any_cases. now rewrite H.
    + intros Hstar Hdigit. rewrite consume_width_if_any_cases.
      cbn [front all_chars skip_while]. rewrite Hdigit.
      destruct (Ascii.eqb ch "*") eqn:E; [|reflexivity].
      now apply Ascii.eqb_eq in E.
    + intros Hdot. rewrite consume_precision_if_any_cases. cbn [front].
      destruct (Ascii.eqb ch ".") eqn:E; [|reflexivity].
      now apply Ascii.eqb_eq in E.
  - intros format.
    destruct (parse_first_placeholder_length pe format) as (r & Hr & _ & Hi).
    exists r. split; [exact Hr|]. intros H. now rewrite (Hi H).
  - apply parse_valid_iff_specifier.
  - apply optional_stages_return_on_literal.
  - apply optional_stage_throws_at_end.
Qed.

(** C5 at ["%5.2q"] behind a string literal: the optional stages return,
    the specifier stage finds [q], and the parse fails. *)
Lemma only_specifier_failure_is_fatal_witness :
  exists r,
    parse_first_placeholder NUL "%5.2q" = Value r
    /\ (is_valid r = true <->
        exists post m,
          consume_specifier NUL "q" all_specifiers
          = Value {| specifier_substring := Some post;
                     placeholder_type_matcher := m |}).
Proof.
  exact (proj1 (proj2 (proj2 (only_specifier_failure_is_fatal NUL)))
           "5.2q" "5.2q"
           {| width_substring := ".2q"; width_type_matcher := None |}
           {| precision_substring := "q"; precision_type_matcher := None |}
           {| length_substring := "q"; allowed_specifiers := all_specifiers |}
           eq_refl eq_refl eq_refl eq_refl).
Defined.

(** ** C6 *)

Lemma skip_escaped_starting_character_advance (view : string) :
  skip_escaped_starting_character view
  = Value (advance (if starts_with view "%%" then 2 else 0) view).
Proof.
  unfold skip_escaped_starting_character.
  destruct (starts_with view "%%") eqn:E; [|reflexivity].
  destruct (prefix_split _ _ E) as [post ->]. reflexivity.
Qed.

Lemma advance_advance (n m : nat) (format : string) :
  advance m (advance n format) = advance (n + m) format.
Proof.
  revert format. induction n as [|n IH]; intros [|ch rest]; simpl; auto.
  now destruct m.
Qed.

(** C6, as stated, fails: on the view ["a%%x"], which neither starts a
    placeholder nor starts with an escape, the claim has the iteration
    advance by one character; the iteration of the code advances by
    three, over the [a] and over the escape behind it. *)
Lemma round_advances_by_more_than_claimed :
  claimed_round_advance NUL "a%%x" = Value 1
  /\ scan_round NUL "a%%x" [] = Value ("x", [])
  /\ size "a%%x" - size "x" <> 1.
Proof. repeat split. discriminate. Qed.

(** C6 (amended): the loop of the scanner runs [scan_round] on the view as
    long as it is not empty, is over after at most [size format] rounds
    and returns the matchers collected by then.  Every round advances by
    [round_advance r], the length of the placeholder (at least one, at
    most the view) when the parse [r] is valid and exactly one otherwise,
    and then by exactly two more when the view that remains starts with
    ["%%"], and by nothing more otherwise; the view it leaves is strictly
    shorter. *)
Theorem scanner_terminates_within_length (pe : ascii) (format : string) :
  (exists rounds start matchers,
     rounds <= size format
     /\ skip_escaped_starting_character format = Value start
     /\ scan_steps pe rounds start [] "" matchers
     /\ parse_format_to_placeholder_matchers pe format = Value matchers)
  /\ (forall budget view result found,
        size view <= budget ->
        (scan_loop pe budget view result = Value found
         <-> exists rounds,
               rounds <= size view
               /\ scan_steps pe rounds view result "" found))
  /\ (forall ch rest result,
        let view := String ch rest in
        exists r escape,
          parse_first_placeholder pe view = Value r
          /\ round_advance r
             = (if is_valid r then Z.to_nat (placeholder_length r) else 1)
          /\ 1 <= round_advance r <= size view
          /\ escape
             = (if starts_with (advance (round_advance r) view) "%%"
                then 2 else 0)
          /\ round_advance r + escape <= size view
          /\ scan_round pe view result
             = Value (advance (round_advance r + escape) view,
                      (result ++ round_matchers r)%list)
          /\ size (advance (round_advance r + escape) view) < size view).
Proof.
  split; [|split].
  - destruct (skip_escaped_starting_character_size format) as (start & Hs & Hle).
    destruct (scan_loop_returns pe (size start) start [] (le_n _))
      as [matchers Hloop].
    destruct (scan_loop_steps pe _ _ _ _ Hloop) as (rounds & Hr & Hsteps).
    exists rounds, start, matchers. repeat split; try assumption; try lia.
    unfold parse_format_to_placeholder_matchers. rewrite Hs. cbn [bind].
    now apply (scan_loop_more_rounds pe (size start)).
  - intros budget view result found Hsize. split.
    + apply scan_loop_steps.
    + intros (rounds & _ & Hsteps). now apply (scan_steps_loop pe rounds).
  - intros ch rest result view.
    destruct (scan_round_spec pe ch rest result)
      as (r & skipped & Hr & Ha & Hs & Hround).
    fold view in Hr, Ha, Hs, Hround.
    exists r, (if starts_with (advance (round_advance r) view) "%%" then 2 else 0).
    rewrite skip_escaped_starting_character_advance, advance_advance in Hs.
    injection Hs as <-.
    pose proof (scan_round_progress pe ch rest result) as (v & res & Hv & Hlt).
    fold view in Hv, Hlt. rewrite Hround in Hv. injection Hv as <- <-.
    rewrite size_advance in Hlt.
    repeat split; try assumption; try lia.
    + destruct (starts_with (advance (round_advance r) view) "%%") eqn:E;
        [|lia].
      destruct (prefix_split _ _ E) as [post Hpost].
      apply (f_equal size) in Hpost. rewrite size_advance, size_append in Hpost.
      change (size "%%") with 2 in Hpost. lia.
    + rewrite size_advance. lia.
Qed.

(** C6 on the view ["%d"]: with a budget of five rounds the loop returns
    what two rounds at most lead to. *)
Lemma scanner_terminates_within_length_witness :
  scan_loop NUL 5 "%d" [] = Value [SignedIntType]
  <-> exists rounds,
        rounds <= size "%d" /\ scan_steps NUL rounds "%d" [] "" [SignedIntType].
Proof.
  apply (proj1 (proj2 (scanner_terminates_within_length NUL ""))
           5 "%d" [] [SignedIntType]).
  simpl. lia.
Defined.

(** ** C7 *)

(** C7: what the scanner does with escapes.  The escape check removes the
    two characters of a ["%%"] at the start of a view, and the scan of
    ["%%d"] is empty.  The check runs once in front of the loop and once at
    the end of each round, though, so the second of two escapes in a row
    reaches the placeholder parser: the scan of ["%%%%d"] takes the last
    [%] and the [d] for a placeholder. *)
Theorem escaped_percent_scan (pe : ascii) :
  (forall rest, skip_escaped_starting_character ("%%" ++ rest) = Value rest)
  /\ parse_format_to_placeholder_matchers pe "%%d" = Value []
  /\ scan_round pe "%%d" [] = Value ("%d", [])
  /\ parse_format_to_placeholder_matchers pe "%%%%d" = Value [SignedIntType].
Proof.
  split; [now intros [|ch rest]|]. repeat split; for_every_past_end pe.
Qed.

(** ** C8 *)

Lemma is_flag_cases (ch : ascii) :
  is_flag ch = true ->
  ch = "+"%char \/ ch = "-"%char \/ ch = " "%char \/ ch = "#"%char \/ ch = "0"%char.
Proof.
  unfold is_flag. intros H. apply existsb_exists in H.
  destruct H as [ch' [Hin Heq]]. apply Ascii.eqb_eq in Heq. subst ch'.
  simpl in Hin. intuition auto.
Qed.

(** C8: the flags stage removes nothing or one flag character, so of two
    flags in a row the second is still there when it returns; the parser
    calls it once, and a second flag other than [0] (which the width stage
    reads as a digit) left in front of the width stage makes the
    placeholder invalid, as in ["%-+5d"], while ["%-5d"] is valid. *)
Theorem flags_stage_strips_at_most_one_flag (pe : ascii) :
  (forall format post,
     consume_flags_if_any pe format = Value post ->
     post = format \/ exists ch, is_flag ch = true /\ format = String ch post)
  /\ (forall first second rest,
        is_flag first = true ->
        consume_flags_if_any pe (String first (String second rest))
        = Value (String second rest))
  /\ (forall first second rest,
        is_flag first = true -> is_flag second = true -> second <> "0"%char ->
        parse_first_placeholder pe (String "%" (String first (String second rest)))
        = Value invalid_placeholder)
  /\ parse_format_to_placeholder_matchers pe "%-+5d" = Value []
  /\ parse_format_to_placeholder_matchers pe "%-5d" = Value [SignedIntType].
Proof.
  split; [|split; [|split; [|split; for_every_past_end pe]]].
  - intros format post. rewrite consume_flags_if_any_cases.
    destruct format as [|ch rest].
    + destruct (is_flag pe); [discriminate|]. intros [= <-]. now left.
    + intros [= <-]. destruct (is_flag ch) eqn:E; [right|now left].
      now exists ch.
  - intros first second rest H. rewrite consume_flags_if_any_cases. now rewrite H.
  - intros first second rest H1 H2 Hzero.
    unfold parse_first_placeholder, parse_first_placeholder_try.
    rewrite consume_start_character_cases. cbn [Ascii.eqb Bool.eqb bind].
    rewrite consume_flags_if_any_cases, H1. cbn [bind].
    destruct (is_flag_cases _ H2) as [->|[->|[->|[->| ->]]]];
      try contradiction; run_stages; reflexivity.
Qed.

(** C8 at ["%-+5d"]: after [-] the [+] is left, and the parse fails. *)
Lemma flags_stage_strips_at_most_one_flag_witness :
  consume_flags_if_any NUL "-+5d" = Value "+5d"
  /\ parse_first_placeholder NUL "%-+5d" = Value invalid_placeholder.
Proof.
  split.
  - exact (proj1 (proj2 (flags_stage_strips_at_most_one_flag NUL))
             "-"%char "+"%char "5d" eq_refl).
  - apply (proj1 (proj2 (proj2 (flags_stage_strips_at_most_one_flag NUL)))
             "-"%char "+"%char "5d"); [reflexivity|reflexivity|discriminate].
Defined.

(** ** C9 *)



(** ** C10 *)

Lemma get_after_prefix (consumed : string) (ch : ascii) (post : string) :
  String.get (size consumed) (consumed ++ String ch post) = Some ch.
Proof.
  induction consumed as [|ch' consumed IH]; simpl; [reflexivity|exact IH].
Qed.

Lemma extra_matcher_unsigned (m : option PlaceholderType) :
  m = None \/ m = Some UnsignedIntType ->
  Forall (eq UnsignedIntType) (extra_matcher m) /\ List.length (extra_matcher m) <= 1.
Proof.
  intros [-> | ->]; simpl; split; auto.
Qed.

(** C10: a valid placeholder has between one and three matchers: at most
    two [UnsignedIntType] (of a [*] width and of a [*] precision) followed
    by the matcher of the specifier character, which is the last character
    of the placeholder. *)
Theorem valid_placeholder_matchers (pe : ascii) (format : string)
    (r : ReturnValue) :
  parse_first_placeholder pe format = Value r -> is_valid r = true ->
  exists extras ch,
    type_matchers r = (extras ++ [specifier_to_placeholder_type_matcher ch])%list
    /\ Forall (eq UnsignedIntType) extras
    /\ List.length extras <= 2
    /\ 1 <= List.length (type_matchers r) <= 3
    /\ String.get (Z.to_nat (placeholder_length r) - 1) format = Some ch.
Proof.
  intros H Hv.
  pose proof (parse_first_placeholder_valid pe format r H Hv) as Ht.
  destruct (parse_first_placeholder_try_inv pe format r Ht)
    as (v0 & v1 & w & p & l & post & m & H0 & H1 & Hw & Hp & Hl & Hs & ->).
  rewrite consume_start_character_cases in H0.
  destruct format as [|c0 rest]; [now destruct (Ascii.eqb pe "%")|].
  destruct (Ascii.eqb c0 "%") eqn:E0; [|discriminate].
  apply Ascii.eqb_eq in E0. subst c0. injection H0 as ->.
  apply consume_flags_if_any_suffix in H1.
  apply consume_width_if_any_spec in Hw. destruct Hw as [Hw Hwm].
  apply consume_precision_if_any_spec in Hp. destruct Hp as [Hp Hpm].
  apply consume_length_if_any_suffix in Hl.
  destruct (consume_specifier_spec _ _ _ _ _ Hs) as (ch & Hch & _ & ->).
  pose proof (suffix_of_trans _ _ _ Hl (suffix_of_trans _ _ _ Hp
                (suffix_of_trans _ _ _ Hw H1))) as [middle Hmid].
  rewrite Hch in Hmid. subst v0.
  destruct (extra_matcher_unsigned _ Hwm) as [Fw Lw].
  destruct (extra_matcher_unsigned _ Hpm) as [Fp Lp].
  exists (extra_matcher (width_type_matcher w)
          ++ extra_matcher (precision_type_matcher p))%list, ch.
  cbn [type_matchers placeholder_length].
  split; [now rewrite app_assoc|].
  split; [now apply Forall_app|].
  split; [rewrite length_app; lia|].
  split; [rewrite !length_app; simpl; lia|].
  replace (Z.to_nat (distance (String "%" (middle ++ String ch post)) post) - 1)
    with (size (String "%" middle)).
  - exact (get_after_prefix (String "%" middle) ch post).
  - unfold distance. rewrite !size_cons, size_append, size_cons. lia.
Qed.

(** C10 at ["%*.*f"] behind a string literal. *)
Lemma valid_placeholder_matchers_witness :
  exists extras ch,
    [UnsignedIntType; UnsignedIntType; FloatingType]
    = (extras ++ [specifier_to_placeholder_type_matcher ch])%list
    /\ Forall (eq UnsignedIntType) extras
    /\ List.length extras <= 2
    /\ 1 <= 3 <= 3
    /\ String.get (Z.to_nat 5 - 1) "%*.*f" = Some ch.
Proof.
  exact (valid_placeholder_matchers NUL "%*.*f"
           {| is_valid := true;
              type_matchers := [UnsignedIntType; UnsignedIntType; FloatingType];
              placeholder_length := 5 |} eq_refl eq_refl).
Defined.

(** * Further properties of the parser *)

(** ** What stands behind the format does not matter *)

Lemma all_chars_skip_while (P : ascii -> bool) (format : string) :
  all_chars P format = true -> skip_while P format = "".
Proof.
  induction format as [|ch rest IH]; simpl; [reflexivity|].
  destruct (P ch); [exact IH|discriminate].
Qed.

Lemma suffix_of_empty (post : string) : suffix_of post "" -> post = "".
Proof.
  intros [consumed H]. destruct consumed; simpl in H; [now subst|discriminate].
Qed.

Section PastEnd.

Variables pe pe' : ascii.

(** A stage that leaves a non-empty view has not looked behind the
    format. *)

Lemma consume_start_character_past_end (format post : string) :
  consume_start_character pe format = Value (Some post) ->
  consume_start_character pe' format = Value (Some post).
Proof.
  rewrite !consume_start_character_cases. destruct format as [|ch rest].
  - now destruct (Ascii.eqb pe "%").
  - trivial.
Qed.

Lemma consume_flags_if_any_past_end (format post : string) :
  consume_flags_if_any pe format = Value post -> post <> "" ->
  consume_flags_if_any pe' format = Value post.
Proof.
  rewrite !consume_flags_if_any_cases. destruct format as [|ch rest]; [|trivial].
  destruct (is_flag pe); [discriminate|]. intros [= <-] H. now elim H.
Qed.

Lemma digits_past_end (format : string) (A : Type) (k : string -> A) (a : A) :
  (if all_chars is_digit format && is_digit pe then Thrown
   else Value (k (skip_while is_digit format))) = Value a ->
  skip_while is_digit format <> "" ->
  (if all_chars is_digit format && is_digit pe' then Thrown
   else Value (k (skip_while is_digit format))) = Value a.
Proof.
  destruct (all_chars is_digit format) eqn:E.
  - intros _ H. elim H. now apply all_chars_skip_while.
  - trivial.
Qed.

Lemma consume_width_if_any_past_end (format : string) (w : WidthReturnValue) :
  consume_width_if_any pe format = Value w -> width_substring w <> "" ->
  consume_width_if_any pe' format = Value w.
Proof.
  rewrite !consume_width_if_any_cases. destruct format as [|ch rest].
  - cbn [front all_chars skip_while andb].
    destruct (Ascii.eqb pe "*"); [discriminate|].
    destruct (is_digit pe); [discriminate|]. intros [= <-] H. now elim H.
  - cbn [front]. destruct (Ascii.eqb ch "*"); [trivial|].
    intros H Hne.
    apply (digits_past_end (String ch rest) _
             (fun v => {| width_substring := v; width_type_matcher := None |}));
      [exact H|].
    destruct (all_chars is_digit (String ch rest) && is_digit pe);
      [discriminate|]. now injection H as <-.
Qed.

Lemma consume_precision_if_any_past_end (format : string)
    (p : PrecisionReturnValue) :
  consume_precision_if_any pe format = Value p -> precision_substring p <> "" ->
  consume_precision_if_any pe' format = Value p.
Proof.
  rewrite !consume_precision_if_any_cases. destruct format as [|ch after_dot].
  - cbn [front]. destruct (Ascii.eqb pe "."); [discriminate|].
    intros [= <-] H. now elim H.
  - cbn [front]. destruct (Ascii.eqb ch "."); [|trivial].
    destruct after_dot as [|ch' rest].
    + cbn [front all_chars skip_while andb].
      destruct (Ascii.eqb pe "*"); [discriminate|].
      destruct (is_digit pe); [discriminate|]. intros [= <-] H. now elim H.
    + cbn [front]. destruct (Ascii.eqb ch' "*"); [trivial|].
      intros H Hne.
      apply (digits_past_end (String ch' rest) _
               (fun v => {| precision_substring := v;
                            precision_type_matcher := None |}));
        [exact H|].
      destruct (all_chars is_digit (String ch' rest) && is_digit pe);
        [discriminate|]. now injection H as <-.
Qed.

Lemma consume_length_if_any_past_end (format : string) (l : LengthReturnValue) :
  consume_length_if_any pe format = Value l -> length_substring l <> "" ->
  consume_length_if_any pe' format = Value l.
Proof.
  rewrite !consume_length_if_any_cases. destruct format as [|ch rest]; [|trivial].
  cbn [starts_with String.prefix].
  destruct (_ || _); [discriminate|]. intros [= <-] H. now elim H.
Qed.

Lemma consume_specifier_past_end (format : string) (allowed : list Specifier.t)
    (post : string) (m : PlaceholderType) :
  consume_specifier pe format allowed
  = Value {| specifier_substring := Some post; placeholder_type_matcher := m |} ->
  consume_specifier pe' format allowed
  = Value {| specifier_substring := Some post; placeholder_type_matcher := m |}.
Proof.
  rewrite !consume_specifier_cases. destruct format as [|ch rest]; [|trivial].
  now destruct (existsb _ _).
Qed.

Lemma suffix_of_nonempty (post format : string) :
  suffix_of post format -> post <> "" -> format <> "".
Proof. intros H Hne ->. now apply Hne, suffix_of_empty. Qed.

Lemma parse_first_placeholder_try_past_end (format : string) (r : ReturnValue) :
  parse_first_placeholder_try pe format = Value (Some r) ->
  parse_first_placeholder_try pe' format = Value (Some r).
Proof.
  intros H. destruct (parse_first_placeholder_try_inv pe format r H)
    as (v0 & v1 & w & p & l & post & m & H0 & H1 & Hw & Hp & Hl & Hs & ->).
  destruct (consume_specifier_spec _ _ _ _ _ Hs) as (ch & Hch & _).
  assert (Nl : length_substring l <> "") by (rewrite Hch; discriminate).
  assert (Np : precision_substring p <> "")
    by (eapply suffix_of_nonempty;
        [eapply consume_length_if_any_suffix; exact Hl|exact Nl]).
  assert (Nw : width_substring w <> "")
    by (eapply suffix_of_nonempty;
        [eapply consume_precision_if_any_spec; exact Hp|exact Np]).
  assert (N1 : v1 <> "")
    by (eapply suffix_of_nonempty;
        [eapply consume_width_if_any_spec; exact Hw|exact Nw]).
  unfold parse_first_placeholder_try.
  rewrite (consume_start_character_past_end _ _ H0). cbn [bind].
  rewrite (consume_flags_if_any_past_end _ _ H1 N1). cbn [bind].
  rewrite (consume_width_if_any_past_end _ _ Hw Nw). cbn [bind].
  rewrite (consume_precision_if_any_past_end _ _ Hp Np). cbn [bind].
  rewrite (consume_length_if_any_past_end _ _ Hl Nl). cbn [bind].
  rewrite (consume_specifier_past_end _ _ _ _ Hs).
  cbn [bind specifier_substring placeholder_type_matcher].
  do 3 f_equal. destruct (width_type_matcher w), (precision_type_matcher p);
    reflexivity.
Qed.

End PastEnd.

Lemma parse_first_placeholder_past_end (pe pe' : ascii) (format : string) :
  parse_first_placeholder pe format = parse_first_placeholder pe' format.
Proof.
  destruct (parse_first_placeholder_cases pe format) as [[r [Ht ->]]|[Ht ->]].
  - apply (parse_first_placeholder_try_past_end pe pe') in Ht.
    unfold parse_first_placeholder. now rewrite Ht.
  - destruct (parse_first_placeholder_cases pe' format) as [[r [Ht' ->]]|[_ ->]];
      [|reflexivity].
    apply (parse_first_placeholder_try_past_end pe' pe) in Ht'.
    rewrite Ht' in Ht. destruct Ht; discriminate.
Qed.

Lemma scan_loop_past_end (pe pe' : ascii) (rounds : nat) (substring : string)
    (result : list PlaceholderType) :
  scan_loop pe rounds substring result = scan_loop pe' rounds substring result.
Proof.
  revert substring result. induction rounds as [|rounds IH];
    intros substring result; [reflexivity|].
  cbn [scan_loop]. destruct (empty substring); [reflexivity|].
  replace (scan_round pe substring result) with (scan_round pe' substring result)
    by (unfold scan_round; now rewrite (parse_first_placeholder_past_end pe pe')).
  destruct (scan_round pe' substring result) as [[v res]| | |]; cbn [bind]; auto.
Qed.

Lemma parse_format_past_end (pe pe' : ascii) (format : string) :
  parse_format_to_placeholder_matchers pe format
  = parse_format_to_placeholder_matchers pe' format.
Proof.
  unfold parse_format_to_placeholder_matchers.
  destruct (skip_escaped_starting_character format); cbn [bind]; auto.
  apply scan_loop_past_end.
Qed.

(** At run time neither the result of the placeholder parser nor the scan
    depends on the character that stands behind the format.  A constant
    evaluation of the scanner that returns gives that same scan, so two
    verifications of one format that both reach a verdict agree; whether
    the constant evaluation returns does depend on that character: the
    format ["%"] without arguments is verified behind a terminator and
    ill-formed behind a [d]. *)
Theorem scan_ignores_what_follows_the_format (pe pe' : ascii) (format : string) :
  parse_first_placeholder pe format = parse_first_placeholder pe' format
  /\ parse_format_to_placeholder_matchers pe format
     = parse_format_to_placeholder_matchers pe' format
  /\ (forall matchers,
        constant_parse_format_to_placeholder_matchers pe format = Value matchers ->
        parse_format_to_placeholder_matchers pe' format = Value matchers)
  /\ (forall (T : Type) (args : list T) (verdict : bool),
        verify_format_with_arguments pe format args = Value verdict ->
        verify_format_with_arguments pe' format args = Value verdict
        \/ verify_format_with_arguments pe' format args = Thrown)
  /\ verify_format_with_arguments NUL "%" (@nil nat) = Value true
  /\ verify_format_with_arguments "d" "%" (@nil nat) = Thrown.
Proof.
  pose proof (parse_format_past_end pe pe' format) as H.
  assert (Hc : forall matchers,
             constant_parse_format_to_placeholder_matchers pe format
             = Value matchers ->
             parse_format_to_placeholder_matchers pe' format = Value matchers).
  { intros matchers E.
    destruct (constant_scan_cases pe format) as [E'|E']; congruence. }
  split; [apply parse_first_placeholder_past_end|]. split; [exact H|].
  split; [exact Hc|]. split; [|split; reflexivity].
  intros T args verdict. unfold verify_format_with_arguments.
  destruct (constant_parse_format_to_placeholder_matchers pe format)
    as [matchers| | |] eqn:E; cbn [bind]; try discriminate.
  intros [= <-]. specialize (Hc matchers eq_refl).
  destruct (constant_scan_cases pe' format) as [E'|E']; rewrite E';
    [now right|]. rewrite Hc. now left.
Qed.

(** Two verifications of ["%d %s"] with two arguments. *)
Lemma scan_ignores_what_follows_the_format_witness :
  verify_format_with_arguments "!" "%d %s" [1; 2] = Value true
  \/ verify_format_with_arguments "!" "%d %s" [1; 2] = Thrown.
Proof.
  exact (proj1 (proj2 (proj2 (proj2
           (scan_ignores_what_follows_the_format NUL "!" "%d %s"))))
           nat [1; 2] true eq_refl).
Defined.

(** ** The character consumers *)

Lemma prefix_append (s post : string) : String.prefix s (s ++ post) = true.
Proof.
  induction s as [|ch s IH]; simpl; [now destruct post|].
  destruct (ascii_dec ch ch); [exact IH|contradiction].
Qed.

Lemma consume_when_contract (P : ascii -> bool) (pe : ascii) (format : string) :
  (forall post,
     consume_when P pe format = Value (Some post)
     <-> exists ch, format = String ch post /\ P ch = true)
  /\ (consume_when P pe format = Thrown <-> format = "" /\ P pe = true)
  /\ returns_or_throws (consume_when P pe format).
Proof.
  split; [|split; [|apply consume_when_returns_or_throws]].
  - intros post. split; [apply consume_when_suffix|].
    intros (ch & -> & H). rewrite consume_when_cons. now rewrite H.
  - destruct format as [|ch rest].
    + rewrite consume_when_empty. destruct (P pe); split; easy.
    + rewrite consume_when_cons. split; [now destruct (P ch)|].
      intros [H _]. discriminate.
Qed.

(** Each of the four single-character consumers returns a view exactly on
    a non-empty input whose first character passes its test, and the view
    is the input without that character; it throws exactly on an empty
    input followed by a character that passes the test (the read past the
    end, then [substr(1)] of an empty view); nothing else can happen. *)
Theorem single_character_consumers_contract (pe : ascii) (format : string) :
  (forall character post,
     (consume_character pe format character = Value (Some post)
      <-> format = String character post)
     /\ (consume_character pe format character = Thrown
         <-> format = "" /\ pe = character))
  /\ (forall lo hi post,
        (consume_character_from_range pe format lo hi = Value (Some post)
         <-> exists ch, format = String ch post
                        /\ (char_value lo <= char_value ch <= char_value hi)%Z)
        /\ (consume_character_from_range pe format lo hi = Thrown
            <-> format = ""
                /\ (char_value lo <= char_value pe <= char_value hi)%Z))
  /\ (forall characters post,
        (consume_character_from_set pe format characters = Value (Some post)
         <-> exists ch, format = String ch post /\ In ch characters)
        /\ (consume_character_from_set pe format characters = Thrown
            <-> format = "" /\ In pe characters))
  /\ (forall characters post,
        (consume_character_from_container pe format characters = Value (Some post)
         <-> exists ch, format = String ch post /\ In ch characters)
        /\ (consume_character_from_container pe format characters = Thrown
            <-> format = "" /\ In pe characters)).
Proof.
  assert (Hin : forall ch characters,
            existsb (Ascii.eqb ch) characters = true <-> In ch characters).
  { intros ch characters. rewrite existsb_exists. split.
    - intros (ch' & Hin & Heq). apply Ascii.eqb_eq in Heq. now subst.
    - intros H. exists ch. split; [exact H|apply Ascii.eqb_refl]. }
  assert (Hrange : forall lo hi ch,
            ((char_value lo <=? char_value ch)
             && (char_value ch <=? char_value hi))%Z = true
            <-> (char_value lo <= char_value ch <= char_value hi)%Z).
  { intros lo hi ch. rewrite andb_true_iff, !Z.leb_le. tauto. }
  split; [|split; [|split]].
  - intros character post. rewrite consume_character_when.
    destruct (consume_when_contract (fun ch => Ascii.eqb ch character) pe format)
      as (Hv & Ht & _).
    split.
    + rewrite Hv. split.
      * intros (ch & -> & H). apply Ascii.eqb_eq in H. now subst.
      * intros ->. exists character. split; [reflexivity|apply Ascii.eqb_refl].
    + rewrite Ht. now rewrite Ascii.eqb_eq.
  - intros lo hi post. rewrite consume_character_from_range_when.
    destruct (consume_when_contract
                (fun ch => ((char_value lo <=? char_value ch)
                            && (char_value ch <=? char_value hi))%Z) pe format)
      as (Hv & Ht & _).
    split.
    + rewrite Hv. split; intros (ch & -> & H); exists ch;
        (split; [reflexivity|now apply Hrange]).
    + rewrite Ht. now rewrite Hrange.
  - intros characters post. rewrite consume_character_from_set_when.
    destruct (consume_when_contract
                (fun ch => existsb (Ascii.eqb ch) characters) pe format)
      as (Hv & Ht & _).
    split.
    + rewrite Hv. split; intros (ch & -> & H); exists ch;
        (split; [reflexivity|now apply Hin]).
    + rewrite Ht. now rewrite Hin.
  - intros characters post. rewrite consume_character_from_container_when.
    destruct (consume_when_contract
                (fun ch => existsb (Ascii.eqb ch) characters) pe format)
      as (Hv & Ht & _).
    split.
    + rewrite Hv. split; intros (ch & -> & H); exists ch;
        (split; [reflexivity|now apply Hin]).
    + rewrite Ht. now rewrite Hin.
Qed.

(** The two overloads of [consume_character_from_set], over a parameter
    pack and over a container, agree on every input. *)
Theorem consume_character_from_set_overloads_agree (pe : ascii)
    (format : string) (characters : list ascii) :
  consume_character_from_set pe format characters
  = consume_character_from_container pe format characters.
Proof.
  rewrite consume_character_from_set_when.
  rewrite consume_character_from_container_when.
  reflexivity.
Qed.

(** [consume_string] never throws: it returns the rest of the view when
    the view starts with the string, and no match otherwise (also on a
    view shorter than the string). *)
Theorem consume_string_contract (format s : string) :
  (forall post, consume_string format s = Value (Some post) <-> format = s ++ post)
  /\ (consume_string format s = Value None <-> forall post, format <> s ++ post)
  /\ (size format < size s -> consume_string format s = Value None)
  /\ (exists result, consume_string format s = Value result).
Proof.
  rewrite consume_string_starts_with. unfold starts_with.
  assert (Hcancel : forall a b, s ++ a = s ++ b -> a = b).
  { intros a b. induction s as [|ch s IH]; simpl; intros H; [exact H|].
    injection H as H. now apply IH. }
  destruct (String.prefix s format) eqn:E.
  - destruct (prefix_split _ _ E) as [post0 ->]. rewrite advance_append.
    split; [|split; [|split]].
    + intros post. split; [now intros [= <-]|].
      intros H. now rewrite (Hcancel _ _ H).
    + split; [discriminate|]. intros H. now elim (H post0).
    + rewrite size_append. lia.
    + eauto.
  - assert (Hno : forall post, format <> s ++ post).
    { intros post ->. now rewrite prefix_append in E. }
    split; [|split; [|split]]; eauto.
    + intros post. split; [discriminate|]. intros H. now elim (Hno post).
    + split; auto.
Qed.

(** [consume_string] on a view of one character that is asked for ["hh"]. *)
Lemma consume_string_contract_witness :
  consume_string "h" "hh" = Value None.
Proof.
  apply (proj1 (proj2 (proj2 (consume_string_contract "h" "hh")))).
  simpl. lia.
Defined.

(** ** The repeated consumer *)

Lemma suffix_of_shorter (post format : string) :
  suffix_of post format -> post <> format -> size post < size format.
Proof.
  intros [consumed ->] H. rewrite size_append.
  destruct consumed as [|ch consumed]; [now elim H|]. rewrite size_cons. lia.
Qed.

Lemma consume_repeatedly_fuel_ends
    (function : string -> outcome (option string)) :
  (forall view, returns_or_throws (function view)) ->
  (forall view post, function view = Value (Some post) -> suffix_of post view) ->
  forall fuel format,
    size format <= fuel ->
    consume_repeatedly_fuel fuel function format = Thrown
    \/ exists post,
         consume_repeatedly_fuel fuel function format = Value (Some post)
         /\ suffix_of post format
         /\ (function post = Value None \/ function post = Value (Some post)).
Proof.
  intros Hret Hsuffix. induction fuel as [|fuel IH]; intros format Hsize.
  - cbn [consume_repeatedly_fuel].
    destruct (Hret format) as [[[value|] E]|E]; rewrite E; cbn [bind];
      [|right; exists format; auto using suffix_of_refl|now left].
    destruct (String.eqb value format) eqn:Eq.
    + apply String.eqb_eq in Eq. subst value.
      right. exists format. auto using suffix_of_refl.
    + apply String.eqb_neq in Eq.
      pose proof (suffix_of_shorter _ _ (Hsuffix _ _ E) Eq). lia.
  - cbn [consume_repeatedly_fuel].
    destruct (Hret format) as [[[value|] E]|E]; rewrite E; cbn [bind];
      [|right; exists format; auto using suffix_of_refl|now left].
    destruct (String.eqb value format) eqn:Eq.
    + apply String.eqb_eq in Eq. subst value.
      right. exists format. auto using suffix_of_refl.
    + apply String.eqb_neq in Eq.
      pose proof (suffix_of_shorter _ _ (Hsuffix _ _ E) Eq) as Hlt.
      destruct (IH value) as [Ht|(post & Hv & Hs & Hend)]; [lia|now left|].
      right. exists post. split; [exact Hv|]. split; [|exact Hend].
      eapply suffix_of_trans; [exact Hs|]. now apply (Hsuffix format).
Qed.

(** For every consumer that returns or throws and whose returned view is
    a tail of the view it was given, [consume_repeatedly] comes to an end
    within as many recursive calls as the view has characters: it throws
    what the consumer throws, or returns a tail of the view on which the
    consumer reports no match or consumes nothing. *)
Theorem consume_repeatedly_ends (function : string -> outcome (option string))
    (format : string) :
  (forall view, returns_or_throws (function view)) ->
  (forall view post, function view = Value (Some post) -> suffix_of post view) ->
  consume_repeatedly function format = Thrown
  \/ exists post,
       consume_repeatedly function format = Value (Some post)
       /\ suffix_of post format
       /\ (function post = Value None \/ function post = Value (Some post)).
Proof.
  intros Hret Hsuffix. now apply consume_repeatedly_fuel_ends.
Qed.

(** [consume_repeatedly] over the consumer of [l], on ["llx"]. *)
Lemma consume_repeatedly_ends_witness :
  consume_repeatedly (fun view => consume_character NUL view "l") "llx" = Thrown
  \/ exists post,
       consume_repeatedly (fun view => consume_character NUL view "l") "llx"
       = Value (Some post)
       /\ suffix_of post "llx"
       /\ (consume_character NUL post "l" = Value None
           \/ consume_character NUL post "l" = Value (Some post)).
Proof.
  apply (consume_repeatedly_ends
           (fun view => consume_character NUL view "l") "llx").
  - intros view.
    exact (consume_when_returns_or_throws NUL
             (fun ch => Ascii.eqb ch "l") view).
  - intros view post H.
    destruct (consume_when_suffix NUL (fun ch => Ascii.eqb ch "l") view post H)
      as (ch & -> & _).
    apply suffix_of_tail.
Defined.

Lemma skip_while_split (P : ascii -> bool) (pe : ascii) (format : string) :
  exists taken,
    format = taken ++ skip_while P format
    /\ all_chars P taken = true
    /\ (all_chars P format = false -> P (front pe (skip_while P format)) = false).
Proof.
  induction format as [|ch rest IH]; simpl.
  - exists "". repeat split. discriminate.
  - destruct (P ch) eqn:E.
    + destruct IH as (taken & Heq & Hall & Hfront).
      exists (String ch taken). simpl. rewrite E, <- Heq. repeat split; auto.
    + exists "". repeat split. intros _. exact E.
Qed.

(** A run of digits is taken whole: [consume_repeatedly] over the range
    ['0'..'9'] splits the view into the digits at its start and a rest
    that does not start with a digit.  It throws exactly when the whole
    view is digits and a digit stands behind it. *)
Theorem consume_digit_run (pe : ascii) (format : string) :
  let result :=
    consume_repeatedly (fun view => consume_character_from_range pe view "0" "9")
      format in
  (result = Thrown <-> all_chars is_digit format = true /\ is_digit pe = true)
  /\ (result <> Thrown ->
      exists digits post,
        result = Value (Some post)
        /\ format = digits ++ post
        /\ all_chars is_digit digits = true
        /\ is_digit (front pe post) = false).
Proof.
  cbv zeta. rewrite consume_digits.
  destruct (skip_while_split is_digit pe format) as (taken & Heq & Hall & Hfront).
  destruct (all_chars is_digit format) eqn:Ea; cbn [andb].
  - destruct (is_digit pe) eqn:Ep.
    + split; [tauto|]. intros H. now elim H.
    + split; [split; [discriminate|intros [_ H]; discriminate]|]. intros _.
      exists taken, (skip_while is_digit format). repeat split; auto.
      rewrite (all_chars_skip_while _ _ Ea). exact Ep.
  - split; [split; [discriminate|intros [H _]; discriminate]|]. intros _.
    exists taken, (skip_while is_digit format). repeat split; auto.
Qed.

(** The digits of ["120px"]. *)
Lemma consume_digit_run_witness :
  exists digits post,
    consume_repeatedly (fun view => consume_character_from_range NUL view "0" "9")
      "120px" = Value (Some post)
    /\ "120px" = digits ++ post
    /\ all_chars is_digit digits = true
    /\ is_digit (front NUL post) = false.
Proof.
  apply (proj2 (consume_digit_run NUL "120px")). discriminate.
Defined.

(** ** Length modifiers and specifiers *)

Lemma is_short_length_cases (ch : ascii) :
  is_short_length ch = true ->
  ch = "h"%char \/ ch = "j"%char \/ ch = "z"%char \/ ch = "t"%char.
Proof.
  unfold is_short_length. intros H. apply existsb_exists in H.
  destruct H as [ch' [Hin Heq]]. apply Ascii.eqb_eq in Heq. subst ch'.
  simpl in Hin. intuition auto.
Qed.

(** Decides membership in one of the four specifier tables. *)
Ltac specifier_membership :=
  unfold all_specifiers, integer_specifiers, long_specifiers,
    long_double_specifiers; simpl;
  repeat split; intros;
  repeat match goal with
         | H : _ \/ _ |- _ => destruct H
         | H : False |- _ => destruct H
         end;
  try congruence; auto 20.

Lemma specifier_tables_included :
  incl integer_specifiers all_specifiers
  /\ incl long_specifiers all_specifiers
  /\ incl long_double_specifiers all_specifiers.
Proof.
  repeat split; intros sp H; simpl in H;
    repeat (destruct H as [<-|H]; [simpl; auto 20|]); destruct H.
Qed.

(** The length stage consumes one of the eight modifiers or nothing, the
    two-character ones first; the pointer specifier is allowed only when
    nothing was consumed, the floating ones only after nothing or [L],
    the character and string ones only after nothing or [l], and the
    integer ones after everything but [L]. *)
Theorem length_modifier_decides_specifiers (pe : ascii) (format : string)
    (l : LengthReturnValue) :
  consume_length_if_any pe format = Value l ->
  exists modifier,
    format = modifier ++ length_substring l
    /\ In modifier [""; "hh"; "ll"; "l"; "L"; "h"; "j"; "z"; "t"]
    /\ (starts_with format "hh" = true -> modifier = "hh")
    /\ (starts_with format "ll" = true -> modifier = "ll")
    /\ (In Specifier.p (allowed_specifiers l) <-> modifier = "")
    /\ (In Specifier.f (allowed_specifiers l) <-> modifier = "" \/ modifier = "L")
    /\ (In Specifier.s (allowed_specifiers l) <-> modifier = "" \/ modifier = "l")
    /\ (In Specifier.c (allowed_specifiers l) <-> modifier = "" \/ modifier = "l")
    /\ (In Specifier.d (allowed_specifiers l) <-> modifier <> "L")
    /\ incl (allowed_specifiers l) all_specifiers.
Proof.
  destruct specifier_tables_included as (Hi & Hl & HL).
  rewrite consume_length_if_any_cases. unfold starts_with.
  destruct (String.prefix "hh" format) eqn:Ehh.
  { destruct (prefix_split _ _ Ehh) as [post ->]. intros [= <-].
    exists "hh". cbn [length_substring allowed_specifiers advance append].
    split; [reflexivity|]. split; [simpl; auto 12|].
    split; [reflexivity|]. split; [discriminate|].
    split; [|split; [|split; [|split; [|split; [|exact Hi]]]]];
      specifier_membership. }
  destruct (String.prefix "ll" format) eqn:Ell.
  { destruct (prefix_split _ _ Ell) as [post ->]. intros [= <-].
    exists "ll". cbn [length_substring allowed_specifiers advance append].
    split; [reflexivity|]. split; [simpl; auto 12|].
    split; [discriminate|]. split; [reflexivity|].
    split; [|split; [|split; [|split; [|split; [|exact Hi]]]]];
      specifier_membership. }
  destruct format as [|ch rest].
  { destruct (_ || _); [discriminate|]. intros [= <-]. exists "".
    cbn [length_substring allowed_specifiers append].
    split; [reflexivity|]. split; [simpl; auto 12|].
    split; [discriminate|]. split; [discriminate|].
    split; [|split; [|split; [|split; [|split; [|apply incl_refl]]]]];
      specifier_membership. }
  destruct (Ascii.eqb ch "l") eqn:El.
  { apply Ascii.eqb_eq in El. subst ch. intros [= <-]. exists "l".
    cbn [length_substring allowed_specifiers append].
    split; [reflexivity|]. split; [simpl; auto 12|].
    split; [discriminate|]. split; [discriminate|].
    split; [|split; [|split; [|split; [|split; [|exact Hl]]]]];
      specifier_membership. }
  destruct (Ascii.eqb ch "L") eqn:EL.
  { apply Ascii.eqb_eq in EL. subst ch. intros [= <-]. exists "L".
    cbn [length_substring allowed_specifiers append].
    split; [reflexivity|]. split; [simpl; auto 12|].
    split; [discriminate|]. split; [discriminate|].
    split; [|split; [|split; [|split; [|split; [|exact HL]]]]];
      specifier_membership. }
  destruct (is_short_length ch) eqn:Es.
  { intros [= <-]. exists (String ch "").
    cbn [length_substring allowed_specifiers append].
    split; [reflexivity|].
    destruct (is_short_length_cases _ Es) as [->|[->|[->| ->]]];
      (split; [simpl; auto 10|]);
      (split; [discriminate|]); (split; [discriminate|]);
      (split; [|split; [|split; [|split; [|split; [|exact Hi]]]]]);
      specifier_membership. }
  intros [= <-]. exists "".
  cbn [length_substring allowed_specifiers append].
  split; [reflexivity|]. split; [simpl; auto 12|].
  split; [discriminate|]. split; [discriminate|].
  split; [|split; [|split; [|split; [|split; [|apply incl_refl]]]]];
    specifier_membership.
Qed.

(** The length stage on ["lld"]: [ll], not [l]. *)
Lemma length_modifier_decides_specifiers_witness :
  exists modifier,
    "lld" = modifier ++ "d"
    /\ In modifier [""; "hh"; "ll"; "l"; "L"; "h"; "j"; "z"; "t"]
    /\ (starts_with "lld" "hh" = true -> modifier = "hh")
    /\ (starts_with "lld" "ll" = true -> modifier = "ll")
    /\ (In Specifier.p integer_specifiers <-> modifier = "")
    /\ (In Specifier.f integer_specifiers <-> modifier = "" \/ modifier = "L")
    /\ (In Specifier.s integer_specifiers <-> modifier = "" \/ modifier = "l")
    /\ (In Specifier.c integer_specifiers <-> modifier = "" \/ modifier = "l")
    /\ (In Specifier.d integer_specifiers <-> modifier <> "L")
    /\ incl integer_specifiers all_specifiers.
Proof.
  exact (length_modifier_decides_specifiers NUL "lld"
           {| length_substring := "d"; allowed_specifiers := integer_specifiers |}
           eq_refl).
Defined.

(** The matcher of the character of every specifier of the enumeration:
    signed for [d i], unsigned for [u o x X], floating for exactly the
    specifiers allowed after [L], one category each for [c], [s] and [p],
    and no requirement only for [n]. *)
Theorem specifier_matcher_table (sp : Specifier.t) :
  let m := specifier_to_placeholder_type_matcher (Specifier.to_char sp) in
  (m = SignedIntType <-> sp = Specifier.d \/ sp = Specifier.i)
  /\ (m = UnsignedIntType
      <-> sp = Specifier.u \/ sp = Specifier.o \/ sp = Specifier.x
          \/ sp = Specifier.X)
  /\ (m = FloatingType <-> In sp long_double_specifiers)
  /\ (m = CharType <-> sp = Specifier.c)
  /\ (m = StringType <-> sp = Specifier.s)
  /\ (m = PointerType <-> sp = Specifier.p)
  /\ (m = Unconstrained <-> sp = Specifier.n).
Proof.
  destruct sp; cbv; specifier_membership.
Qed.

Lemma to_char_injective (sp sp' : Specifier.t) :
  Specifier.to_char sp = Specifier.to_char sp' -> sp = sp'.
Proof. destruct sp, sp'; simpl; intros H; try reflexivity; discriminate H. Qed.

Lemma in_specifiers_to_characters (ch : ascii) (allowed : list Specifier.t) :
  In ch (specifiers_to_characters allowed)
  <-> exists sp, In sp allowed /\ ch = Specifier.to_char sp.
Proof.
  unfold specifiers_to_characters. rewrite in_map_iff.
  split; intros (sp & H1 & H2); exists sp; auto.
Qed.

(** The specifier stage consumes exactly one character, the character of
    one of the allowed specifiers, and reports the matcher of that
    specifier; on every other non-empty view it reports no match and no
    requirement. *)
Theorem consume_specifier_contract (pe : ascii) (allowed : list Specifier.t)
    (ch : ascii) (rest : string) :
  ((exists sp, In sp allowed /\ ch = Specifier.to_char sp) ->
   consume_specifier pe (String ch rest) allowed
   = Value {| specifier_substring := Some rest;
              placeholder_type_matcher :=
                specifier_to_placeholder_type_matcher ch |})
  /\ ((forall sp, In sp allowed -> ch <> Specifier.to_char sp) ->
      consume_specifier pe (String ch rest) allowed
      = Value {| specifier_substring := None;
                 placeholder_type_matcher := Unconstrained |}).
Proof.
  rewrite consume_specifier_cases.
  destruct (existsb (Ascii.eqb ch) (specifiers_to_characters allowed)) eqn:E.
  - split; [reflexivity|]. intros H.
    apply existsb_exists in E. destruct E as (ch' & Hin & Heq).
    apply Ascii.eqb_eq in Heq. subst ch'.
    apply in_specifiers_to_characters in Hin. destruct Hin as (sp & Hin & ->).
    now elim (H sp Hin).
  - split; [|reflexivity]. intros H.
    apply in_specifiers_to_characters in H.
    assert (Ht : existsb (Ascii.eqb ch) (specifiers_to_characters allowed) = true).
    { apply existsb_exists. exists ch. split; [exact H|apply Ascii.eqb_refl]. }
    congruence.
Qed.

(** The specifier stage after [l]: [s] is taken, [f] is not. *)
Lemma consume_specifier_contract_witness :
  consume_specifier NUL "s!" long_specifiers
  = Value {| specifier_substring := Some "!";
             placeholder_type_matcher := StringType |}
  /\ consume_specifier NUL "f!" long_specifiers
     = Value {| specifier_substring := None;
                placeholder_type_matcher := Unconstrained |}.
Proof.
  split.
  - apply (proj1 (consume_specifier_contract NUL long_specifiers "s" "!")).
    exists Specifier.s. split; [simpl; auto 10|reflexivity].
  - apply (proj2 (consume_specifier_contract NUL long_specifiers "f" "!")).
    intros sp H. simpl in H.
    repeat (destruct H as [<-|H]; [discriminate|]). destruct H.
Defined.

(** ** The placeholder parser *)

(** A [%] followed at once by the character of any of the eighteen
    specifiers is a placeholder of two characters with the matcher of
    that specifier alone, whatever follows. *)
Theorem bare_specifier_is_valid (pe : ascii) (sp : Specifier.t) (rest : string) :
  parse_first_placeholder pe (String "%" (String (Specifier.to_char sp) rest))
  = Value {| is_valid := true;
             type_matchers :=
               [specifier_to_placeholder_type_matcher (Specifier.to_char sp)];
             placeholder_length := 2 |}.
Proof.
  destruct sp; run_stages; now rewrite !distance_cons, distance_same.
Qed.

Lemma parse_first_placeholder_without_start (pe : ascii) :
  parse_first_placeholder pe "" = Value invalid_placeholder
  /\ (forall ch rest,
        ch <> "%"%char ->
        parse_first_placeholder pe (String ch rest) = Value invalid_placeholder)
  /\ parse_first_placeholder pe "%" = Value invalid_placeholder
  /\ (forall rest,
        parse_first_placeholder pe (String "%" (String "%" rest))
        = Value invalid_placeholder).
Proof.
  split; [|split; [|split]].
  - unfold parse_first_placeholder, parse_first_placeholder_try.
    rewrite consume_start_character_cases. now destruct (Ascii.eqb pe "%").
  - intros ch rest H.
    unfold parse_first_placeholder, parse_first_placeholder_try.
    rewrite consume_start_character_cases.
    destruct (Ascii.eqb ch "%") eqn:E; [|reflexivity].
    now apply Ascii.eqb_eq in E.
  - for_every_past_end pe.
  - intros rest. run_stages. reflexivity.
Qed.

(** The placeholder parser gives the invalid result on the empty view, on
    a view that does not start with [%], on a lone [%] and on a view that
    starts with the escape [%%]. *)
Theorem no_placeholder_without_start (pe : ascii) :
  parse_first_placeholder pe "" = Value invalid_placeholder
  /\ (forall ch rest,
        ch <> "%"%char ->
        parse_first_placeholder pe (String ch rest) = Value invalid_placeholder)
  /\ parse_first_placeholder pe "%" = Value invalid_placeholder
  /\ (forall rest,
        parse_first_placeholder pe (String "%" (String "%" rest))
        = Value invalid_placeholder).
Proof. exact (parse_first_placeholder_without_start pe). Qed.

(** The parser on ["d%"]: no [%] in front. *)
Lemma no_placeholder_without_start_witness :
  parse_first_placeholder NUL "d%" = Value invalid_placeholder.
Proof.
  apply (proj1 (proj2 (no_placeholder_without_start NUL)) "d"%char "%").
  discriminate.
Defined.

(** ** How scans compose *)

Lemma append_empty_r (format : string) : format ++ "" = format.
Proof. induction format as [|ch rest IH]; simpl; [reflexivity|now rewrite IH]. Qed.

Lemma scan_loop_accumulates (pe : ascii) (rounds : nat) (substring : string)
    (result : list PlaceholderType) :
  scan_loop pe rounds substring result
  = (found <- scan_loop pe rounds substring [] ;; Value (result ++ found)%list).
Proof.
  revert substring result. induction rounds as [|rounds IH];
    intros [|ch rest] result; cbn [scan_loop empty bind];
    try (now rewrite app_nil_r).
  - reflexivity.
  - destruct (scan_round_spec pe ch rest result) as (r & skipped & Hr & _ & Hs & ->).
    destruct (scan_round_spec pe ch rest []) as (r' & skipped' & Hr' & _ & Hs' & ->).
    rewrite Hr in Hr'. injection Hr' as <-. rewrite Hs in Hs'. injection Hs' as <-.
    cbn [bind app]. rewrite (IH skipped (result ++ round_matchers r)%list).
    rewrite (IH skipped (round_matchers r)).
    destruct (scan_loop pe rounds skipped []); cbn [bind]; try reflexivity.
    now rewrite app_assoc.
Qed.

Lemma scan_loop_enough (pe : ascii) (rounds rounds' : nat) (substring : string)
    (result : list PlaceholderType) :
  size substring <= rounds -> size substring <= rounds' ->
  scan_loop pe rounds substring result = scan_loop pe rounds' substring result.
Proof.
  intros H H'.
  destruct (scan_loop_returns pe (size substring) substring result (le_n _))
    as [matchers Hm].
  rewrite (scan_loop_more_rounds pe _ rounds _ _ _ Hm H).
  now rewrite (scan_loop_more_rounds pe _ rounds' _ _ _ Hm H').
Qed.

Lemma skip_escaped_starting_character_other (ch : ascii) (rest : string) :
  ch <> "%"%char ->
  skip_escaped_starting_character (String ch rest) = Value (String ch rest).
Proof.
  intros H.
  destruct (skip_escaped_starting_character_cases (String ch rest))
    as [[post [E _]]|[_ E]]; [|exact E].
  simpl in E. injection E as E _. now elim H.
Qed.

Lemma scan_skips_one_character (pe : ascii) (ch : ascii) (rest : string) :
  ch <> "%"%char ->
  parse_format_to_placeholder_matchers pe (String ch rest)
  = parse_format_to_placeholder_matchers pe rest.
Proof.
  intros H. unfold parse_format_to_placeholder_matchers.
  rewrite (skip_escaped_starting_character_other ch rest H).
  cbn [bind size String.length scan_loop empty]. unfold scan_round.
  rewrite (proj1 (proj2 (parse_first_placeholder_without_start pe)) ch rest H).
  cbn [bind is_valid invalid_placeholder]. unfold remove_prefix.
  rewrite size_cons.
  replace ((0 <=? 1) && (1 <=? Z.of_nat (S (size rest))))%Z
    with true by (symmetry; apply andb_true_iff; split; apply Z.leb_le; lia).
  cbn [bind]. change (advance (Z.to_nat 1) (String ch rest)) with rest.
  destruct (skip_escaped_starting_character rest); reflexivity.
Qed.

Lemma scan_literal_prefix (pe : ascii) (literal rest : string) :
  literal_text literal = true ->
  parse_format_to_placeholder_matchers pe (literal ++ rest)
  = parse_format_to_placeholder_matchers pe rest.
Proof.
  unfold literal_text. induction literal as [|ch literal IH]; simpl;
    [reflexivity|].
  intros H. apply andb_true_iff in H. destruct H as [Hch Hrest].
  rewrite scan_skips_one_character; [now apply IH|].
  intros ->. discriminate Hch.
Qed.

(** Text without a [%] in front of a format does not change its scan. *)
Theorem scan_skips_literal_text (pe : ascii) (literal rest : string) :
  literal_text literal = true ->
  parse_format_to_placeholder_matchers pe (literal ++ rest)
  = parse_format_to_placeholder_matchers pe rest.
Proof. exact (scan_literal_prefix pe literal rest). Qed.

(** ["took "] in front of ["%d ms"]. *)
Lemma scan_skips_literal_text_witness :
  parse_format_to_placeholder_matchers NUL ("took " ++ "%d ms")
  = parse_format_to_placeholder_matchers NUL "%d ms".
Proof. apply (scan_skips_literal_text NUL "took " "%d ms"). reflexivity. Defined.

Lemma literal_text_suffix (view format : string) :
  literal_text format = true -> suffix_of view format ->
  literal_text view = true.
Proof.
  unfold literal_text. intros H [consumed ->].
  induction consumed as [|ch consumed IH]; simpl in H; [exact H|].
  apply andb_true_iff in H. now apply IH.
Qed.

Lemma parse_first_placeholder_try_on_literal_text (pe : ascii) (view : string) :
  view <> "" -> literal_text view = true ->
  parse_first_placeholder_try pe view = Value None.
Proof.
  intros Hne H. destruct view as [|ch rest]; [now elim Hne|].
  unfold literal_text in H. simpl in H. apply andb_true_iff in H.
  destruct H as [H _]. unfold parse_first_placeholder_try.
  rewrite consume_start_character_cases.
  now destruct (Ascii.eqb ch "%").
Qed.

(** A format without a [%] asks for no argument: its scan is empty, and
    its verification succeeds exactly on an empty argument list. *)
Theorem literal_format_takes_no_argument (pe : ascii) (format : string)
    (T : Type) (args : list T) :
  literal_text format = true ->
  parse_format_to_placeholder_matchers pe format = Value []
  /\ (verify_format_with_arguments pe format args = Value true <-> args = []).
Proof.
  intros H.
  assert (Hscan : parse_format_to_placeholder_matchers pe format = Value []).
  { rewrite <- (append_empty_r format).
    now rewrite (scan_literal_prefix pe format "" H). }
  assert (Hconstant : constant_parse_format_to_placeholder_matchers pe format
                      = Value []).
  { rewrite constant_scan_without_throw; [exact Hscan|].
    intros view Hne Hsuf.
    rewrite (parse_first_placeholder_try_on_literal_text pe view Hne
               (literal_text_suffix _ _ H Hsuf)).
    discriminate. }
  split; [exact Hscan|].
  unfold verify_format_with_arguments. rewrite Hconstant. cbn [bind List.length].
  destruct args as [|a args]; simpl; split; try reflexivity; discriminate.
Qed.

(** ["done"] with one argument is refused. *)
Lemma literal_format_takes_no_argument_witness :
  parse_format_to_placeholder_matchers NUL "done" = Value []
  /\ (verify_format_with_arguments NUL "done" [7] = Value true <-> [7] = []).
Proof.
  apply (literal_format_takes_no_argument NUL "done" nat [7]). reflexivity.
Defined.

(** A format that starts with a valid placeholder is scanned as the
    matchers of that placeholder followed by the scan of what stands
    behind it. *)
Theorem scan_of_leading_placeholder (pe : ascii) (format : string)
    (r : ReturnValue) :
  parse_first_placeholder pe format = Value r -> is_valid r = true ->
  exists following,
    parse_format_to_placeholder_matchers pe
      (advance (Z.to_nat (placeholder_length r)) format) = Value following
    /\ parse_format_to_placeholder_matchers pe format
       = Value (type_matchers r ++ following)%list.
Proof.
  intros Hr Hv.
  destruct format as [|ch rest].
  { rewrite (proj1 (parse_first_placeholder_without_start pe)) in Hr.
    injection Hr as <-. discriminate Hv. }
  assert (Hskip : skip_escaped_starting_character (String ch rest)
                  = Value (String ch rest)).
  { destruct (skip_escaped_starting_character_cases (String ch rest))
      as [[post [E _]]|[_ E]]; [|exact E].
    simpl in E. injection E as -> ->.
    rewrite (proj2 (proj2 (proj2 (parse_first_placeholder_without_start pe)))) in Hr.
    injection Hr as <-. discriminate Hv. }
  destruct (scan_round_spec pe ch rest []) as (r' & skipped & Hr' & Hadv & Hs & Hround).
  rewrite Hr in Hr'. injection Hr' as <-.
  unfold round_advance, round_matchers in *. rewrite Hv in *. cbn [app] in Hround.
  set (behind := advance (Z.to_nat (placeholder_length r)) (String ch rest)) in *.
  destruct (skip_escaped_starting_character_size behind) as (skipped' & Hs' & Hle).
  rewrite Hs in Hs'. injection Hs' as <-.
  assert (Hbehind : size behind <= size rest).
  { unfold behind. rewrite size_advance, size_cons. lia. }
  destruct (scan_loop_returns pe (size behind) skipped [] Hle) as [following Hf].
  exists following. unfold parse_format_to_placeholder_matchers.
  rewrite Hs, Hskip. cbn [bind]. split; [exact Hf|].
  rewrite size_cons. cbn [scan_loop empty]. rewrite Hround. cbn [bind].
  rewrite scan_loop_accumulates.
  rewrite (scan_loop_enough pe (size rest) (size behind)); [|lia|lia].
  now rewrite Hf.
Qed.

(** ["%5.2f%%"]: the matcher of the placeholder, then the scan of ["%%"]. *)
Lemma scan_of_leading_placeholder_witness :
  exists following,
    parse_format_to_placeholder_matchers NUL (advance (Z.to_nat 5) "%5.2f%%")
    = Value following
    /\ parse_format_to_placeholder_matchers NUL "%5.2f%%"
       = Value ([FloatingType] ++ following)%list.
Proof.
  exact (scan_of_leading_placeholder NUL "%5.2f%%"
           {| is_valid := true; type_matchers := [FloatingType];
              placeholder_length := 5 |} eq_refl eq_refl).
Defined.

(** An escape [%%] in front of a format that does not itself start with
    an escape does not change its scan. *)
Theorem scan_skips_leading_escape (pe : ascii) (rest : string) :
  starts_with rest "%%" = false ->
  parse_format_to_placeholder_matchers pe ("%%" ++ rest)
  = parse_format_to_placeholder_matchers pe rest.
Proof.
  intros H. unfold parse_format_to_placeholder_matchers.
  destruct (skip_escaped_starting_character_cases ("%%" ++ rest))
    as [[post [E ->]]|[E _]].
  - simpl in E. injection E as <-.
    unfold skip_escaped_starting_character. rewrite H. cbn [bind].
    apply scan_loop_enough; [rewrite size_append|]; lia.
  - unfold starts_with in E. now rewrite prefix_append in E.
Qed.

(** ["%%"] in front of ["%d"]. *)
Lemma scan_skips_leading_escape_witness :
  parse_format_to_placeholder_matchers NUL ("%%" ++ "%d")
  = parse_format_to_placeholder_matchers NUL "%d".
Proof. apply (scan_skips_leading_escape NUL "%d"). reflexivity. Defined.

(** ** How many arguments a format can ask for *)

Lemma consume_width_if_any_cost (pe : ascii) (format : string)
    (w : WidthReturnValue) :
  consume_width_if_any pe format = Value w ->
  size (width_substring w) + List.length (extra_matcher (width_type_matcher w))
  <= size format.
Proof.
  rewrite consume_width_if_any_cases.
  destruct (Ascii.eqb (front pe format) "*").
  - destruct format as [|ch rest]; [discriminate|]. intros [= <-].
    cbn [width_substring width_type_matcher precision_substring
         precision_type_matcher extra_matcher List.length].
    rewrite size_cons. lia.
  - destruct (_ && _); [discriminate|]. intros [= <-].
    cbn [width_substring width_type_matcher precision_substring
         precision_type_matcher extra_matcher List.length].
    pose proof (suffix_of_size _ _ (skip_while_suffix is_digit format)). lia.
Qed.

Lemma consume_precision_if_any_cost (pe : ascii) (format : string)
    (p : PrecisionReturnValue) :
  consume_precision_if_any pe format = Value p ->
  size (precision_substring p)
  + 2 * List.length (extra_matcher (precision_type_matcher p))
  <= size format.
Proof.
  rewrite consume_precision_if_any_cases.
  destruct (Ascii.eqb (front pe format) ".").
  - destruct format as [|ch after_dot]; [discriminate|].
    destruct (Ascii.eqb (front pe after_dot) "*").
    + destruct after_dot as [|ch' rest]; [discriminate|]. intros [= <-].
    cbn [width_substring width_type_matcher precision_substring
         precision_type_matcher extra_matcher List.length].
      rewrite !size_cons. lia.
    + destruct (_ && _); [discriminate|]. intros [= <-].
    cbn [width_substring width_type_matcher precision_substring
         precision_type_matcher extra_matcher List.length].
      pose proof (suffix_of_size _ _ (skip_while_suffix is_digit after_dot)).
      rewrite size_cons. lia.
  - intros [= <-].
    cbn [width_substring width_type_matcher precision_substring
         precision_type_matcher extra_matcher List.length]. lia.
Qed.

(** A placeholder with [k] matchers spans at least [2], [3], [5]
    characters for [k = 1, 2, 3]. *)
Lemma valid_placeholder_cost (pe : ascii) (format : string) (r : ReturnValue) :
  parse_first_placeholder pe format = Value r -> is_valid r = true ->
  (3 * Z.of_nat (List.length (type_matchers r)) <= 2 * placeholder_length r)%Z.
Proof.
  intros H Hv.
  pose proof (parse_first_placeholder_valid pe format r H Hv) as Ht.
  destruct (parse_first_placeholder_try_inv pe format r Ht)
    as (v0 & v1 & w & p & l & post & m & H0 & H1 & Hw & Hp & Hl & Hs & ->).
  rewrite consume_start_character_cases in H0.
  destruct format as [|c0 rest]; [now destruct (Ascii.eqb pe "%")|].
  destruct (Ascii.eqb c0 "%"); [|discriminate]. injection H0 as ->.
  apply consume_flags_if_any_suffix, suffix_of_size in H1.
  pose proof (consume_width_if_any_cost _ _ _ Hw) as Cw.
  pose proof (consume_precision_if_any_cost _ _ _ Hp) as Cp.
  apply consume_length_if_any_suffix, suffix_of_size in Hl.
  destruct (consume_specifier_spec _ _ _ _ _ Hs) as (ch & Hch & _).
  rewrite Hch, size_cons in Hl.
  destruct (consume_width_if_any_spec _ _ _ Hw) as [_ Mw].
  destruct (consume_precision_if_any_spec _ _ _ Hp) as [_ Mp].
  cbn [type_matchers placeholder_length]. unfold distance.
  rewrite size_cons, !length_app. cbn [List.length].
  destruct Mw as [Mw|Mw], Mp as [Mp|Mp]; rewrite Mw, Mp in *;
    cbn [extra_matcher List.length] in *; lia.
Qed.

Lemma scan_loop_cost (pe : ascii) (rounds : nat) (substring : string)
    (result found : list PlaceholderType) :
  scan_loop pe rounds substring result = Value found ->
  3 * List.length found <= 3 * List.length result + 2 * size substring.
Proof.
  revert substring result. induction rounds as [|rounds IH];
    intros [|ch rest] result; cbn [scan_loop empty]; try discriminate;
    try (intros [= <-]; lia).
  destruct (scan_round_spec pe ch rest result)
    as (r & skipped & Hr & Hadv & Hs & ->).
  cbn [bind]. intros H. apply IH in H.
  destruct (skip_escaped_starting_character_size
              (advance (round_advance r) (String ch rest))) as (post & Hp & Hle).
  rewrite Hs in Hp. injection Hp as <-. rewrite size_advance in Hle.
  rewrite length_app in H.
  assert (3 * List.length (round_matchers r) <= 2 * round_advance r).
  { unfold round_matchers, round_advance in *. destruct (is_valid r) eqn:E.
    - pose proof (valid_placeholder_cost pe _ r Hr E). lia.
    - simpl. lia. }
  lia.
Qed.

(** A scan holds at most two matchers for every three characters of the
    format (the densest format repeats ["%*d"]), so a verification with
    more arguments than characters never succeeds: the assertion fails,
    or the constant evaluation ends at a [throw]; behind a terminator the
    assertion fails. *)
Theorem scan_is_shorter_than_format (pe : ascii) (format : string) :
  exists matchers,
    parse_format_to_placeholder_matchers pe format = Value matchers
    /\ 3 * List.length matchers <= 2 * size format
    /\ (forall (T : Type) (args : list T),
          size format < List.length args ->
          (verify_format_with_arguments pe format args = Value false
           \/ verify_format_with_arguments pe format args = Thrown)
          /\ verify_format_with_arguments NUL format args = Value false).
Proof.
  destruct (parse_format_to_placeholder_matchers_returns pe format)
    as [matchers H].
  exists matchers. split; [exact H|].
  assert (Hb : 3 * List.length matchers <= 2 * size format).
  { unfold parse_format_to_placeholder_matchers in H.
    destruct (skip_escaped_starting_character_size format) as (start & Hs & Hle).
    rewrite Hs in H. cbn [bind] in H. apply scan_loop_cost in H.
    cbn [List.length] in H. lia. }
  split; [exact Hb|].
  intros T args Hargs. unfold verify_format_with_arguments. split.
  - destruct (constant_scan_cases pe format) as [E|E]; rewrite E;
      [now right|left].
    rewrite H. cbn [bind]. f_equal. apply Nat.eqb_neq. lia.
  - destruct (constant_scan_on_literal format) as (found & Hc & Hr).
    rewrite Hc. cbn [bind]. f_equal. apply Nat.eqb_neq.
    rewrite (parse_format_past_end NUL pe format) in Hr.
    rewrite H in Hr. injection Hr as <-. lia.
Qed.

(** ["%*d%*d"]: four matchers on six characters; seven arguments fail. *)
Lemma scan_is_shorter_than_format_witness :
  parse_format_to_placeholder_matchers NUL "%*d%*d"
  = Value [UnsignedIntType; SignedIntType; UnsignedIntType; SignedIntType]
  /\ verify_format_with_arguments NUL "%*d%*d" [1; 2; 3; 4; 5; 6; 7]
     = Value false.
Proof.
  split; [reflexivity|].
  destruct (scan_is_shorter_than_format NUL "%*d%*d") as (matchers & _ & _ & H).
  apply (H nat [1; 2; 3; 4; 5; 6; 7]). simpl. lia.
Defined.

(** ** Flags, literal widths and literal precisions *)

(** One flag in front of a valid placeholder that has none gives a valid
    placeholder with the same matchers, one character longer. *)
Theorem flag_in_front_of_placeholder (pe : ascii) (flag ch : ascii)
    (rest : string) (r : ReturnValue) :
  parse_first_placeholder pe (String "%" (String ch rest)) = Value r ->
  is_valid r = true -> is_flag ch = false -> is_flag flag = true ->
  parse_first_placeholder pe (String "%" (String flag (String ch rest)))
  = Value {| is_valid := true; type_matchers := type_matchers r;
             placeholder_length := placeholder_length r + 1 |}.
Proof.
  intros H Hv Hch Hflag.
  pose proof (parse_first_placeholder_valid pe _ r H Hv) as Ht.
  destruct (parse_first_placeholder_try_inv pe _ r Ht)
    as (v0 & v1 & w & p & l & post & m & H0 & H1 & Hw & Hp & Hl & Hs & ->).
  rewrite consume_start_character_cases in H0. cbn in H0. injection H0 as <-.
  rewrite consume_flags_if_any_cases, Hch in H1. injection H1 as <-.
  unfold parse_first_placeholder, parse_first_placeholder_try.
  rewrite consume_start_character_cases. cbn [Ascii.eqb Bool.eqb bind].
  rewrite consume_flags_if_any_cases, Hflag. cbn [bind].
  rewrite Hw. cbn [bind]. rewrite Hp. cbn [bind]. rewrite Hl. cbn [bind].
  rewrite Hs. cbn [bind specifier_substring placeholder_type_matcher try_catch
                   type_matchers placeholder_length].
  do 2 f_equal.
  - destruct (width_type_matcher w), (precision_type_matcher p); reflexivity.
  - rewrite !distance_cons. lia.
Qed.

(** A [-] in front of the width of ["%8.3f"]. *)
Lemma flag_in_front_of_placeholder_witness :
  parse_first_placeholder NUL "%-8.3f"
  = Value {| is_valid := true; type_matchers := [FloatingType];
             placeholder_length := 5 + 1 |}.
Proof.
  exact (flag_in_front_of_placeholder NUL "-" "8" ".3f"
           {| is_valid := true; type_matchers := [FloatingType];
              placeholder_length := 5 |} eq_refl eq_refl eq_refl eq_refl).
Defined.

Lemma digit_facts (ch : ascii) :
  is_digit ch = true ->
  Ascii.eqb ch "*" = false /\ Ascii.eqb ch "." = false
  /\ (is_flag ch = true -> ch = "0"%char).
Proof.
  destruct ch as [[] [] [] [] [] [] [] []]; vm_compute; intros H;
    try discriminate H; repeat split; intros H'; try discriminate H';
    reflexivity.
Qed.

Lemma skip_while_append (P : ascii -> bool) (taken : string) (ch : ascii)
    (rest : string) :
  all_chars P taken = true -> P ch = false ->
  skip_while P (taken ++ String ch rest) = String ch rest
  /\ all_chars P (taken ++ String ch rest) = false.
Proof.
  intros Hall Hch. induction taken as [|c taken IH]; simpl in *.
  - now rewrite Hch.
  - apply andb_true_iff in Hall. destruct Hall as [Hc Hall]. rewrite Hc.
    simpl. now apply IH.
Qed.

Lemma front_append (pe : ascii) (taken : string) (ch : ascii) (rest : string)
    (P : ascii -> bool) :
  all_chars P taken = true ->
  front pe (taken ++ String ch rest) = ch
  \/ P (front pe (taken ++ String ch rest)) = true.
Proof.
  destruct taken as [|c taken]; simpl; [now left|].
  intros H. apply andb_true_iff in H. now right.
Qed.

(** The width stage on digits followed by something else. *)
Lemma consume_width_if_any_digits (pe : ascii) (digits : string) (ch : ascii)
    (rest : string) :
  all_chars is_digit digits = true -> is_digit ch = false ->
  Ascii.eqb ch "*" = false ->
  consume_width_if_any pe (digits ++ String ch rest)
  = Value {| width_substring := String ch rest; width_type_matcher := None |}.
Proof.
  intros Hd Hch Hstar. rewrite consume_width_if_any_cases.
  destruct (skip_while_append is_digit digits ch rest Hd Hch) as [-> ->].
  destruct (front_append pe digits ch rest is_digit Hd) as [->|H].
  - now rewrite Hstar.
  - now rewrite (proj1 (digit_facts _ H)).
Qed.

Lemma consume_flags_if_any_digits (pe : ascii) (digits : string) (ch : ascii)
    (rest : string) :
  all_chars is_digit digits = true -> is_flag ch = false ->
  exists digits',
    all_chars is_digit digits' = true
    /\ consume_flags_if_any pe (digits ++ String ch rest)
       = Value (digits' ++ String ch rest).
Proof.
  intros Hd Hch. rewrite consume_flags_if_any_cases.
  destruct digits as [|c digits]; simpl.
  - exists "". now rewrite Hch.
  - simpl in Hd. apply andb_true_iff in Hd. destruct Hd as [Hc Hd].
    destruct (is_flag c).
    + now exists digits.
    + exists (String c digits). simpl. now rewrite Hc, Hd.
Qed.

Lemma specifier_character_facts (sp : Specifier.t) :
  let ch := Specifier.to_char sp in
  is_digit ch = false /\ is_flag ch = false /\ Ascii.eqb ch "*" = false
  /\ Ascii.eqb ch "." = false.
Proof. destruct sp; repeat split. Qed.

(** A literal width, and a literal width and precision, in front of any
    specifier: the placeholder is valid, asks for the argument of the
    specifier alone, and spans the [%], the digits, the dot and the
    specifier. *)
Theorem literal_width_and_precision (pe : ascii) (width precision : string)
    (sp : Specifier.t) (rest : string) :
  all_chars is_digit width = true -> all_chars is_digit precision = true ->
  let ch := Specifier.to_char sp in
  parse_first_placeholder pe (String "%" (width ++ String ch rest))
  = Value {| is_valid := true;
             type_matchers := [specifier_to_placeholder_type_matcher ch];
             placeholder_length := Z.of_nat (size width) + 2 |}
  /\ parse_first_placeholder pe
       (String "%" (width ++ String "." (precision ++ String ch rest)))
     = Value {| is_valid := true;
                type_matchers := [specifier_to_placeholder_type_matcher ch];
                placeholder_length :=
                  Z.of_nat (size width) + Z.of_nat (size precision) + 3 |}.
Proof.
  intros Hw Hp ch.
  destruct (specifier_character_facts sp) as (Cd & Cf & Cs & Cdot).
  fold ch in Cd, Cf, Cs, Cdot.
  assert (Hlen : consume_length_if_any pe (String ch rest)
                 = Value {| length_substring := String ch rest;
                            allowed_specifiers := all_specifiers |}).
  { subst ch. rewrite consume_length_if_any_cases. now destruct sp. }
  assert (Hspec : consume_specifier pe (String ch rest) all_specifiers
                  = Value {| specifier_substring := Some rest;
                             placeholder_type_matcher :=
                               specifier_to_placeholder_type_matcher ch |}).
  { subst ch. rewrite consume_specifier_cases. now destruct sp. }
  split.
  - destruct (consume_flags_if_any_digits pe width ch rest Hw Cf)
      as (width' & Hw' & Hflags).
    unfold parse_first_placeholder, parse_first_placeholder_try.
    rewrite consume_start_character_cases. cbn [Ascii.eqb Bool.eqb bind].
    rewrite Hflags. cbn [bind].
    rewrite (consume_width_if_any_digits pe width' ch rest Hw' Cd Cs).
    cbn [bind width_substring width_type_matcher].
    rewrite consume_precision_if_any_cases. cbn [front]. rewrite Cdot.
    cbn [bind precision_substring precision_type_matcher].
    rewrite Hlen. cbn [bind length_substring allowed_specifiers].
    rewrite Hspec. cbn [bind specifier_substring placeholder_type_matcher
                        try_catch emplace_back_if_any app].
    do 3 f_equal. unfold distance. rewrite size_cons, size_append, size_cons. lia.
  - assert (Fdot : is_flag "." = false) by reflexivity.
    assert (Ddot : is_digit "." = false) by reflexivity.
    destruct (consume_flags_if_any_digits pe width "."
                (precision ++ String ch rest) Hw Fdot)
      as (width' & Hw' & Hflags).
    unfold parse_first_placeholder, parse_first_placeholder_try.
    rewrite consume_start_character_cases. cbn [Ascii.eqb Bool.eqb bind].
    rewrite Hflags. cbn [bind].
    rewrite (consume_width_if_any_digits pe width' "."
               (precision ++ String ch rest) Hw' Ddot eq_refl).
    cbn [bind width_substring width_type_matcher].
    rewrite consume_precision_if_any_cases. cbn [front Ascii.eqb Bool.eqb].
    destruct (skip_while_append is_digit precision ch rest Hp Cd) as [-> ->].
    replace (Ascii.eqb (front pe (precision ++ String ch rest)) "*") with false.
    + cbn [andb bind precision_substring precision_type_matcher].
      rewrite Hlen. cbn [bind length_substring allowed_specifiers].
      rewrite Hspec. cbn [bind specifier_substring placeholder_type_matcher
                          try_catch emplace_back_if_any app].
      do 3 f_equal. unfold distance.
      rewrite size_cons, size_append, size_cons, size_append, size_cons. lia.
    + destruct (front_append pe precision ch rest is_digit Hp) as [->|H];
        [now rewrite Cs|]. now rewrite (proj1 (digit_facts _ H)).
Qed.

(** ["%08x"] and ["%8.3f"]. *)
Lemma literal_width_and_precision_witness :
  parse_first_placeholder NUL "%08x"
  = Value {| is_valid := true; type_matchers := [UnsignedIntType];
             placeholder_length := 2 + 2 |}
  /\ parse_first_placeholder NUL "%8.3f"
     = Value {| is_valid := true; type_matchers := [FloatingType];
                placeholder_length := 1 + 1 + 3 |}.
Proof.
  split.
  - exact (proj1 (literal_width_and_precision NUL "08" "" Specifier.x ""
                    eq_refl eq_refl)).
  - exact (proj2 (literal_width_and_precision NUL "8" "3" Specifier.f ""
                    eq_refl eq_refl)).
Defined.

(** A [*] as width, as precision, or as both, in front of any specifier:
    each [*] asks for one [UnsignedIntType] argument in front of the
    argument of the specifier. *)
Theorem star_width_and_precision (pe : ascii) (sp : Specifier.t) (rest : string) :
  let ch := Specifier.to_char sp in
  let m := specifier_to_placeholder_type_matcher ch in
  parse_first_placeholder pe (String "%" (String "*" (String ch rest)))
  = Value {| is_valid := true; type_matchers := [UnsignedIntType; m];
             placeholder_length := 3 |}
  /\ parse_first_placeholder pe
       (String "%" (String "." (String "*" (String ch rest))))
     = Value {| is_valid := true; type_matchers := [UnsignedIntType; m];
                placeholder_length := 4 |}
  /\ parse_first_placeholder pe
       (String "%" (String "*" (String "." (String "*" (String ch rest)))))
     = Value {| is_valid := true;
                type_matchers := [UnsignedIntType; UnsignedIntType; m];
                placeholder_length := 5 |}.
Proof.
  destruct sp; cbv zeta; repeat split; run_stages;
    now rewrite !distance_cons, distance_same.
Qed.

(** ** The scanner in the static assertion *)

(** The constant evaluation of the scanner ends at a [throw] or returns
    the scan of the run time, never another one; it returns that scan
    whenever the [try] block of the placeholder parser throws on none of
    the non-empty views into the tail of the format, which is so for
    every format behind a terminator. *)
Theorem constant_evaluation_of_the_scan (pe : ascii) (format : string) :
  (constant_parse_format_to_placeholder_matchers pe format = Thrown
   \/ constant_parse_format_to_placeholder_matchers pe format
      = parse_format_to_placeholder_matchers pe format)
  /\ ((forall view, view <> "" -> suffix_of view format ->
                    parse_first_placeholder_try pe view <> Thrown) ->
      constant_parse_format_to_placeholder_matchers pe format
      = parse_format_to_placeholder_matchers pe format)
  /\ constant_parse_format_to_placeholder_matchers NUL format
     = parse_format_to_placeholder_matchers NUL format
  /\ (forall view, parse_first_placeholder_try NUL view <> Thrown).
Proof.
  split; [apply constant_scan_cases|].
  split; [apply constant_scan_without_throw|].
  split; [|apply parse_first_placeholder_try_on_literal].
  destruct (constant_scan_on_literal format) as (matchers & Hc & Hr).
  congruence.
Qed.

(** ["ok"] in front of any character: nothing to throw. *)
Lemma constant_evaluation_of_the_scan_witness :
  constant_parse_format_to_placeholder_matchers "d" "ok"
  = parse_format_to_placeholder_matchers "d" "ok".
Proof.
  apply (proj1 (proj2 (constant_evaluation_of_the_scan "d" "ok"))).
  intros view Hne [consumed H].
  destruct consumed as [|c1 consumed]; simpl in H.
  - subst view. vm_compute. discriminate.
  - injection H as <- H. destruct consumed as [|c2 consumed]; simpl in H.
    + subst view. vm_compute. discriminate.
    + injection H as <- H. destruct consumed; simpl in H;
        [subst view; now elim Hne|discriminate].
Defined.
